(** * express-session-mongo: the session store engine [MongoStoreBase]

    A shallow embedding of [src/MongoStoreBase.ts].  Every method of the
    class is an [async] function; it is embedded as a finite program tree
    ([Prog]) whose nodes are the effects the method performs: reads and writes
    of the fields of [this], readings of the wall clock, calls to the MongoDB
    collection that are awaited, and awaits of an inner promise.  The same
    tree is given two semantics:

    - [run]: one call executed from start to end with nothing interleaved
      (the semantics of [await store.get(sid)] in a sequential caller);
    - [advance] and [sched]: the event-loop semantics, in which a call runs
      up to its next [await], other calls run meanwhile, and the call is
      resumed later.

    [debug(...)] lines only log and are left out.  The callback adapter of
    [src/MongoStore.ts] adds nothing to these methods and is not modelled. *)

From Stdlib Require Import ZArith List String Bool Arith Lia.
Import ListNotations.
Open Scope string_scope.
Open Scope list_scope.

(** ** Configuration (module level of the source) *)

Inductive MongoSessionCleanupStrategy : Type :=
| native
| interval.

(** The connected client passed in by the application; the engine never looks
    inside it. *)
Inductive MongoClient : Type :=
| mongoClient (connection : nat).

(** [MongoStoreParams].  A field is an [option] where the JavaScript value may
    be [undefined] at run time: the source tests [client], [dbName] and
    [collection] for that, and the other three are declared optional. *)
Record MongoStoreParams : Type := mkParams {
  p_client : option MongoClient;
  p_dbName : option string;
  p_collection : option string;
  p_cleanupStrategy : option MongoSessionCleanupStrategy;
  p_ttlMs : Z;
  p_prefix : option string;
  p_cleanupInterval : option Z
}.

(** JavaScript [!s] on a value that is a string or [undefined]. *)
Definition falsy (s : option string) : bool :=
  match s with
  | None => true
  | Some s => String.eqb s ""
  end.

(** [s || ''] *)
Definition or_empty (s : option string) : string :=
  match s with
  | None => ""
  | Some s => s
  end.

(** [millisecondsToSeconds] of date-fns 2: [Math.floor(ms / 1000)]; [Z.div]
    rounds down, also below zero. *)
Definition millisecondsToSeconds (ms : Z) : Z := (ms / 1000)%Z.

(** What a rejected promise of the engine carries. *)
Inductive Error : Type :=
| Error_ (message : string)   (* [throw new Error(message)] *)
| StorageError                (* a call to the collection was rejected *)
| TypeError.                  (* a method called on an undefined [this.collection] *)

(** The configuration errors of [init]: the message names the package, then
    the field that is missing. *)
Definition config_error (what : string) : Error :=
  Error_ ("express-session-mongo: " ++ what).

Inductive Outcome (A : Type) : Type :=
| Returned (a : A)
| Thrown (e : Error).
Arguments Returned {A} a.
Arguments Thrown {A} e.

(** The handle [client.db(dbName).collection(name)]. *)
Record Collection : Type := mkCollection {
  col_client : MongoClient;
  col_db : string;
  col_name : string
}.

(** The options object of [createIndex], with the key pattern. *)
Record IndexSpec : Type := mkIndex {
  idx_keys : list string;
  idx_name : string;
  idx_unique : bool;
  idx_expireAfterSeconds : option Z
}.

Definition session_id_idx : IndexSpec :=
  mkIndex ["sessionId"] "session_id_idx" true None.

Definition session_id_expires_idx : IndexSpec :=
  mkIndex ["expiresMs"; "sessionId"] "session_id_expires_idx" false None.

Definition updated_at_ttl_idx (ttlMs : Z) : IndexSpec :=
  mkIndex ["updatedAt"] "updated_at_ttl_idx" false
          (Some (millisecondsToSeconds ttlMs)).

(** The fields of a [MongoStoreBase] object. *)
Record This : Type := mkThis {
  hasInit : bool;
  config : MongoStoreParams;
  client : option MongoClient;
  collection : option Collection;
  prefix : string
}.

Definition set_client (c : MongoClient) (t : This) : This :=
  mkThis (hasInit t) (config t) (Some c) (collection t) (prefix t).

Definition set_collection (c : Collection) (t : This) : This :=
  mkThis (hasInit t) (config t) (client t) (Some c) (prefix t).

Definition set_hasInit (b : bool) (t : This) : This :=
  mkThis b (config t) (client t) (collection t) (prefix t).

(** [constructor(config)]; [this.collection] is not assigned there. *)
Definition new_MongoStoreBase (cfg : MongoStoreParams) : This :=
  mkThis false cfg None None (or_empty (p_prefix cfg)).

(** [getSid(sid)] *)
Definition getSid (t : This) (sid : string) : string :=
  (prefix t ++ sid)%string.

(** ** A concrete configuration, clock and storage layer

    The engine is configured with the prefix ["p:"], the clock advances by
    one second at every reading, and the storage layer rejects no call, or
    only the second one. *)

Definition sample_config (ttl : Z) : MongoStoreParams :=
  mkParams (Some (mongoClient 0)) (Some "express-session") (Some "sessions")
           None ttl (Some "p:") None.

Definition sample_clock (n : nat) : Z := 1000 * Z.of_nat n.

Definition no_fault (n : nat) : bool := false.

Definition second_call_fails (n : nat) : bool := Nat.eqb n 1.

Module MongoStoreBase.
Section Engine.

(** The session payload is opaque to the engine. *)
Variable Payload : Type.

(** ** The stored documents and the collection *)

(** [SessionData]; [updatedAt] is a [Date], kept as its epoch milliseconds. *)
Record SessionData : Type := mkSession {
  sessionId : string;
  data : Payload;
  expiresMs : Z;
  updatedAt : Z
}.

(** The query documents the engine builds are conjunctions of these three
    conditions; [{}] is the empty conjunction. *)
Inductive Cond : Type :=
| sessionId_eq (s : string)     (* [sessionId: s] *)
| expiresMs_gt (t : Z)          (* [expiresMs: { $gt: t }] *)
| expiresMs_lt (t : Z).         (* [expiresMs: { $lt: t }] *)

Definition Filter : Type := list Cond.

Definition holds (c : Cond) (d : SessionData) : bool :=
  match c with
  | sessionId_eq s => String.eqb (sessionId d) s
  | expiresMs_gt t => (expiresMs d >? t)%Z
  | expiresMs_lt t => (expiresMs d <? t)%Z
  end.

Definition matches (f : Filter) (d : SessionData) : bool :=
  forallb (fun c => holds c d) f.

(** The calls the engine makes on its collection.  Every [updateOne] of the
    source has a [$set] that assigns all four fields, so the update is given
    as the document it leaves behind. *)
Inductive Call : Type :=
| CreateIndex (spec : IndexSpec)
| FindOne (f : Filter)
| UpdateOne (f : Filter) (set_ : SessionData) (upsert : bool)
| DeleteOne (f : Filter)
| DeleteMany (f : Filter)
| Find (f : Filter)
| CountDocuments (f : Filter).

(** What the awaited promise of a call resolves to. *)
Definition Reply (c : Call) : Type :=
  match c with
  | CreateIndex _ => string
  | FindOne _ => option SessionData
  | UpdateOne _ _ _ => unit
  | DeleteOne _ => unit
  | DeleteMany _ => unit
  | Find _ => list SessionData
  | CountDocuments _ => nat
  end.

(** The collection on the server: its documents in insertion order and the
    indexes it has. *)
Record Storage : Type := mkStorage {
  docs : list SessionData;
  indexes : list IndexSpec
}.

Fixpoint update_first (f : Filter) (d : SessionData) (l : list SessionData)
  : option (list SessionData) :=
  match l with
  | [] => None
  | x :: r =>
    if matches f x then Some (d :: r)
    else match update_first f d r with
         | Some r' => Some (x :: r')
         | None => None
         end
  end.

(** What MongoDB does to the documents of a collection on a call that
    succeeds.  [updateOne] changes the first document that matches and, with
    [upsert], inserts the document when none matches; [deleteOne] removes the
    first document that matches. *)
Definition findOne (f : Filter) (l : list SessionData) : option SessionData :=
  find (matches f) l.

Definition updateOne (f : Filter) (d : SessionData) (upsert : bool)
           (l : list SessionData) : list SessionData :=
  match update_first f d l with
  | Some l' => l'
  | None => if upsert then l ++ [d] else l
  end.

Fixpoint deleteOne (f : Filter) (l : list SessionData) : list SessionData :=
  match l with
  | [] => []
  | x :: r => if matches f x then r else x :: deleteOne f r
  end.

Definition deleteMany (f : Filter) (l : list SessionData) : list SessionData :=
  filter (fun d => negb (matches f d)) l.

Definition find_ (f : Filter) (l : list SessionData) : list SessionData :=
  filter (matches f) l.

Definition countDocuments (f : Filter) (l : list SessionData) : nat :=
  List.length (filter (matches f) l).

Definition has_index (n : string) (l : list IndexSpec) : bool :=
  existsb (fun i => String.eqb (idx_name i) n) l.

(** [createIndex] with the name of an index the collection has is taken as
    the request for that same index, which MongoDB answers without creating
    anything. *)
Definition createIndex (spec : IndexSpec) (l : list IndexSpec)
  : list IndexSpec :=
  if has_index (idx_name spec) l then l else l ++ [spec].

Definition exec (c : Call) (s : Storage) : Reply c * Storage :=
  match c return Reply c * Storage with
  | CreateIndex spec =>
    (idx_name spec, mkStorage (docs s) (createIndex spec (indexes s)))
  | FindOne f => (findOne f (docs s), s)
  | UpdateOne f d upsert =>
    (tt, mkStorage (updateOne f d upsert (docs s)) (indexes s))
  | DeleteOne f => (tt, mkStorage (deleteOne f (docs s)) (indexes s))
  | DeleteMany f => (tt, mkStorage (deleteMany f (docs s)) (indexes s))
  | Find f => (find_ f (docs s), s)
  | CountDocuments f => (countDocuments f (docs s), s)
  end.

(** ** Programs *)

Inductive Prog (A : Type) : Type :=
| Ret (a : A)
| Throw (e : Error)
| ReadThis (k : This -> Prog A)                  (* read fields of [this] *)
| WriteThis (f : This -> This) (k : Prog A)      (* assign a field of [this] *)
| Now (k : Z -> Prog A)                          (* [new Date().getTime()] *)
| Await (c : Call) (k : Reply c -> Prog A)       (* [await this.collection.c] *)
| Yield (k : Prog A).                            (* [await] of a settled promise *)
Arguments Ret {A} a.
Arguments Throw {A} e.
Arguments ReadThis {A} k.
Arguments WriteThis {A} f k.
Arguments Now {A} k.
Arguments Await {A} c k.
Arguments Yield {A} k.

Fixpoint bind {A B : Type} (p : Prog A) (f : A -> Prog B) : Prog B :=
  match p with
  | Ret a => f a
  | Throw e => Throw e
  | ReadThis k => ReadThis (fun t => bind (k t) f)
  | WriteThis g k => WriteThis g (bind k f)
  | Now k => Now (fun t => bind (k t) f)
  | Await c k => Await c (fun r => bind (k r) f)
  | Yield k => Yield (bind k f)
  end.

Notation "x <- p ;; q" := (bind p (fun x => q))
  (at level 61, p at next level, right associativity).
Notation "p ;; q" := (bind p (fun _ => q))
  (at level 61, right associativity).

Definition readThis : Prog This := ReadThis Ret.
Definition writeThis (f : This -> This) : Prog unit := WriteThis f (Ret tt).
Definition now : Prog Z := Now Ret.

(** [await p] where [p] is the promise of another async method: the callee
    runs first, and the caller continues one turn of the event loop after the
    callee has settled. *)
Definition await_ {A : Type} (p : Prog A) : Prog A :=
  x <- p ;; Yield (Ret x).

(** [await this.collection.c(...)]: the method is looked up on
    [this.collection], which is [undefined] until [init] assigns it. *)
Definition call (c : Call) : Prog (Reply c) :=
  ReadThis (fun t =>
    match collection t with
    | Some _ => Await c Ret
    | None => Throw TypeError
    end).

(** ** The methods *)

Definition native_strategy (cfg : MongoStoreParams) : bool :=
  match p_cleanupStrategy cfg with
  | None => true
  | Some native => true
  | Some interval => false
  end.

Definition init : Prog unit :=
  t <- readThis ;;
  match client t with
  | Some _ => Ret tt
  | None =>
    match p_client (config t) with
    | None => Throw (Error_ "express-session-mongo: client not defined")
    | Some c =>
      if falsy (p_dbName (config t)) then
        Throw (Error_ "express-session-mongo: dbName not defined")
      else if falsy (p_collection (config t)) then
        Throw (Error_ "express-session-mongo: collection not defined")
      else
        writeThis (set_client c) ;;
        writeThis (set_collection
                     (mkCollection c (or_empty (p_dbName (config t)))
                                   (or_empty (p_collection (config t))))) ;;
        call (CreateIndex session_id_idx) ;;
        call (CreateIndex session_id_expires_idx) ;;
        t <- readThis ;;
        (if native_strategy (config t)
         then call (CreateIndex (updated_at_ttl_idx (p_ttlMs (config t)))) ;;
              Ret tt
         else Ret tt) ;;
        writeThis (set_hasInit true)
    end
  end.

Definition get (sid : string) : Prog (option Payload) :=
  t <- readThis ;;
  let formattedSid := getSid t sid in
  await_ init ;;
  time <- now ;;
  resp <- call (FindOne [expiresMs_gt time; sessionId_eq formattedSid]) ;;
  match resp with
  | None => Ret None
  | Some r => Ret (Some (data r))
  end.

Definition set (sid : string) (session : Payload) : Prog unit :=
  await_ init ;;
  t <- readThis ;;
  let formattedSid := getSid t sid in
  time <- now ;;
  let msTtl := (time + p_ttlMs (config t))%Z in
  date <- now ;;
  call (UpdateOne [sessionId_eq formattedSid]
                  (mkSession formattedSid session msTtl date) true) ;;
  Ret tt.

Definition destroy (sid : string) : Prog unit :=
  await_ init ;;
  t <- readThis ;;
  let formattedSid := getSid t sid in
  call (DeleteOne [sessionId_eq formattedSid]) ;;
  Ret tt.

Definition all : Prog (list Payload) :=
  await_ init ;;
  time <- now ;;
  results <- call (Find [expiresMs_gt time]) ;;
  Ret (map data results).

Definition length : Prog nat :=
  await_ init ;;
  time <- now ;;
  call (CountDocuments [expiresMs_gt time]).

Definition clear : Prog unit :=
  await_ init ;;
  call (DeleteMany []) ;;
  Ret tt.

Definition touch (sid : string) (session : Payload) : Prog unit :=
  t <- readThis ;;
  let formattedSid := getSid t sid in   (* only logged *)
  await_ init ;;
  await_ (set sid session).

Definition removeExpiredSessions : Prog unit :=
  await_ init ;;
  time <- now ;;
  call (DeleteMany [expiresMs_lt time]) ;;
  Ret tt.

(** ** The world a call runs in *)

(** The wall clock and the failures of the storage layer are not decided by
    the engine: [clock n] is what the [n]-th reading of the clock returns,
    and [fault n] tells whether the [n]-th call received by the collection is
    rejected. *)
Variable clock : nat -> Z.
Variable fault : nat -> bool.

Record World : Type := mkWorld {
  this : This;            (* the engine object *)
  db : Storage;           (* the collection on the server *)
  ticks : nat;            (* clock readings taken so far *)
  trace : list Call       (* calls received by the collection, oldest first *)
}.

(** A call is received, and carried out, by the collection when the engine
    makes it; a rejected call leaves the documents and indexes as they
    were. *)
Definition issue (c : Call) (w : World) : option (Reply c) * World :=
  if fault (List.length (trace w)) then
    (None, mkWorld (this w) (db w) (ticks w) (trace w ++ [c]))
  else
    (Some (fst (exec c (db w))),
     mkWorld (this w) (snd (exec c (db w))) (ticks w) (trace w ++ [c])).

Definition write (f : This -> This) (w : World) : World :=
  mkWorld (f (this w)) (db w) (ticks w) (trace w).

Definition tick (w : World) : World :=
  mkWorld (this w) (db w) (S (ticks w)) (trace w).

(** One call from start to end, nothing interleaved. *)
Fixpoint run {A : Type} (p : Prog A) (w : World) : Outcome A * World :=
  match p with
  | Ret a => (Returned a, w)
  | Throw e => (Thrown e, w)
  | ReadThis k => run (k (this w)) w
  | WriteThis f k => run k (write f w)
  | Now k => run (k (clock (ticks w))) (tick w)
  | Await c k =>
    match issue c w with
    | (Some r, w') => run (k r) w'
    | (None, w') => (Thrown StorageError, w')
    end
  | Yield k => run k w
  end.

(** The event loop: a call runs until it has to wait. *)
Inductive Stop (A : Type) : Type :=
| Finished (o : Outcome A)
| Suspended (rest : Prog A).
Arguments Finished {A} o.
Arguments Suspended {A} rest.

Fixpoint advance {A : Type} (p : Prog A) (w : World) : Stop A * World :=
  match p with
  | Ret a => (Finished (Returned a), w)
  | Throw e => (Finished (Thrown e), w)
  | ReadThis k => advance (k (this w)) w
  | WriteThis f k => advance k (write f w)
  | Now k => advance (k (clock (ticks w))) (tick w)
  | Await c k =>
    match issue c w with
    | (Some r, w') => (Suspended (k r), w')
    | (None, w') => (Suspended (Throw StorageError), w')
    end
  | Yield k => (Suspended k, w)
  end.

(** The calls an application can make, and what they resolve to. *)
Inductive Op : Type :=
| OpGet (sid : string)
| OpSet (sid : string) (session : Payload)
| OpDestroy (sid : string)
| OpAll
| OpLength
| OpClear
| OpTouch (sid : string) (session : Payload)
| OpRemoveExpiredSessions.

Inductive Value : Type :=
| VSession (s : option Payload)
| VVoid
| VSessions (l : list Payload)
| VNumber (n : nat).

Definition invoke (op : Op) : Prog Value :=
  match op with
  | OpGet sid => r <- get sid ;; Ret (VSession r)
  | OpSet sid session => set sid session ;; Ret VVoid
  | OpDestroy sid => destroy sid ;; Ret VVoid
  | OpAll => r <- all ;; Ret (VSessions r)
  | OpLength => r <- length ;; Ret (VNumber r)
  | OpClear => clear ;; Ret VVoid
  | OpTouch sid session => touch sid session ;; Ret VVoid
  | OpRemoveExpiredSessions => removeExpiredSessions ;; Ret VVoid
  end.

(** The engine, its collection and the calls in flight. *)
Record Sys : Type := mkSys {
  world : World;
  pool : list (Stop Value)
}.

Inductive Event : Type :=
| Invoke (op : Op)      (* the application calls a method *)
| Resume (i : nat).     (* the event loop resumes the [i]-th call *)

Definition resume (t : Stop Value) (w : World) : Stop Value * World :=
  match t with
  | Finished o => (Finished o, w)
  | Suspended p => advance p w
  end.

Fixpoint replace_nth {A : Type} (i : nat) (x : A) (l : list A) : list A :=
  match l, i with
  | [], _ => []
  | _ :: r, O => x :: r
  | y :: r, S j => y :: replace_nth j x r
  end.

Definition sched_step (s : Sys) (e : Event) : Sys :=
  match e with
  | Invoke op =>
    mkSys (snd (advance (invoke op) (world s)))
          (pool s ++ [fst (advance (invoke op) (world s))])
  | Resume i =>
    match nth_error (pool s) i with
    | Some t =>
      mkSys (snd (resume t (world s)))
            (replace_nth i (fst (resume t (world s))) (pool s))
    | None => s
    end
  end.

Definition sched (evs : list Event) (s : Sys) : Sys :=
  fold_left sched_step evs s.

(** A new engine on a collection, before any call. *)
Definition boot (cfg : MongoStoreParams) (s : Storage) : Sys :=
  mkSys (mkWorld (new_MongoStoreBase cfg) s 0 []) [].

(** ** Predicates on engines, collections and runs *)

(** The three checks at the start of [init] pass. *)
Definition valid_config (cfg : MongoStoreParams) : bool :=
  match p_client cfg with
  | Some _ => negb (falsy (p_dbName cfg)) && negb (falsy (p_collection cfg))
  | None => false
  end.

(** [this.client] and [this.collection] have been assigned. *)
Definition assigned (t : This) : bool :=
  match client t, collection t with
  | Some _, Some _ => true
  | _, _ => false
  end.

(** An engine as the constructor leaves it, with a configuration that passes
    the checks, or one whose [init] has passed them before. *)
Definition ready (t : This) : bool :=
  match client t with
  | Some _ => assigned t
  | None => valid_config (config t)
  end.

Definition no_faults : Prop := forall n, fault n = false.

(** [w'] is [w] after a call that took [n] clock readings and left the
    documents [d]. *)
Definition after (w : World) (n : nat) (d : list SessionData) (w' : World)
  : Prop :=
  assigned (this w') = true /\
  prefix (this w') = prefix (this w) /\
  config (this w') = config (this w) /\
  ticks w' = ticks w + n /\
  docs (db w') = d.

(** A record is live at [t] when it expires strictly later. *)
Definition live (t : Z) (d : SessionData) : bool := (expiresMs d >? t)%Z.

Definition has_key (k : string) (d : SessionData) : bool :=
  String.eqb (sessionId d) k.

(** No two documents of the collection have the same [sessionId]: what the
    unique index [session_id_idx] enforces. *)
Definition unique_ids (l : list SessionData) : Prop :=
  NoDup (map sessionId l).

(** ** What a program may still do to the collection

    [Owes I Q l p]: as long as the fields of [this] satisfy [I], every call
    the program [p] makes is allowed by [Q], except that it may create the
    indexes named in [l], each once and in that order.  The assignments of
    [p] keep [I]. *)
Section Obligations.

Variable I : This -> Prop.
Variable Q : Call -> Prop.

Inductive Owes {A : Type} : list string -> Prog A -> Prop :=
| Owes_ret l a : Owes l (Ret a)
| Owes_throw l e : Owes l (Throw e)
| Owes_read l k : (forall t, I t -> Owes l (k t)) -> Owes l (ReadThis k)
| Owes_write l f k :
    (forall t, I t -> I (f t)) -> Owes l k -> Owes l (WriteThis f k)
| Owes_now l k : (forall z, Owes l (k z)) -> Owes l (Now k)
| Owes_await l c k : Q c -> (forall r, Owes l (k r)) -> Owes l (Await c k)
| Owes_index l spec k :
    (forall r, Owes l (k r)) ->
    Owes (idx_name spec :: l) (Await (CreateIndex spec) k)
| Owes_yield l k : Owes l k -> Owes l (Yield k)
| Owes_skip l n p : Owes l p -> Owes (n :: l) p.

Definition stop_owes {A : Type} (l : list string) (s : Stop A) : Prop :=
  match s with
  | Finished _ => True
  | Suspended p => Owes l p
  end.

End Obligations.

(** ** Initialization: what is counted and what is kept *)

Definition is_createIndex (c : Call) : bool :=
  match c with
  | CreateIndex _ => true
  | _ => false
  end.

(** The names of the indexes whose creation the collection was asked for. *)
Definition index_names (tr : list Call) : list string :=
  flat_map (fun c => match c with
                     | CreateIndex spec => [idx_name spec]
                     | _ => []
                     end) tr.

(** How many [createIndex] calls for the index [n] the collection received. *)
Definition creations (n : string) (tr : list Call) : nat :=
  count_occ string_dec (index_names tr) n.

(** The guard of [init] is passed: [this.client] is assigned. *)
Definition client_assigned (t : This) : Prop := client t <> None.

(** Any call but [createIndex]. *)
Definition data_call (c : Call) : Prop := is_createIndex c = false.

(** The indexes [init] creates, in order. *)
Definition setup_sequence (cfg : MongoStoreParams) : list IndexSpec :=
  [session_id_idx; session_id_expires_idx] ++
  (if native_strategy cfg then [updated_at_ttl_idx (p_ttlMs cfg)] else []).

(** The indexes left to create once the first [createIndex] is sent. *)
Definition later_indexes : list string :=
  ["session_id_expires_idx"; "updated_at_ttl_idx"].

(** A first stretch on an engine whose [client] is not assigned: it fails a
    check and changes nothing, or it assigns [client], sends the first
    [createIndex] and waits. *)
Definition fresh_step {A : Type} (w : World) (r : Stop A * World) : Prop :=
  (valid_config (config (this w)) = false /\
   exists e, r = (Finished (Thrown e), w)) \/
  (valid_config (config (this w)) = true /\
   client (this (snd r)) <> None /\
   trace (snd r) = trace w ++ [CreateIndex session_id_idx] /\
   exists p, fst r = Suspended p /\
             Owes client_assigned data_call later_indexes p).

(** The call has settled. *)
Definition finished {A : Type} (s : Stop A) : bool :=
  match s with
  | Finished _ => true
  | Suspended _ => false
  end.

(** What holds of the engine, its collection and the calls in flight at any
    moment.  Either [client] is not assigned yet, no index was asked for and
    no call is waiting ([Fresh]); or [client] is assigned, the first index of
    the setup was asked for, and the index names already sent together with
    those the waiting calls may still send have no repetition
    ([Started]). *)
Definition Fresh (s : Sys) : Prop :=
  client (this (world s)) = None /\
  hasInit (this (world s)) = false /\
  index_names (trace (world s)) = [] /\
  Forall (fun t => finished t = true) (pool s).

Definition Started (s : Sys) : Prop :=
  client (this (world s)) <> None /\
  In "session_id_idx" (index_names (trace (world s))) /\
  exists budgets,
    Forall2 (fun t l => stop_owes client_assigned data_call l t)
            (pool s) budgets /\
    NoDup (index_names (trace (world s)) ++ List.concat budgets).

Definition Inv (s : Sys) : Prop := Fresh s \/ Started s.

(** The first [m] calls from now on succeed and the next one is rejected. *)
Definition fails_at (w : World) (m : nat) : Prop :=
  (forall i, i < m -> fault (List.length (trace w) + i) = false) /\
  fault (List.length (trace w) + m) = true.

(** The property the specification words as "every operation issued before
    initialization completes awaits the single shared initialization
    attempt": no call has returned while [hasInit] is still [false]. *)
Definition calls_wait_for_init (cfg : MongoStoreParams) (s0 : Storage) : Prop :=
  forall (evs : list Event) (i : nat) (v : Value),
    nth_error (pool (sched evs (boot cfg s0))) i = Some (Finished (Returned v)) ->
    hasInit (this (world (sched evs (boot cfg s0)))) = true.

(** The session ids a call mentions, in its query and in the document it
    writes. *)
Definition call_keys (c : Call) : list string :=
  let filter_keys (f : Filter) :=
    flat_map (fun x => match x with sessionId_eq s => [s] | _ => [] end) f in
  match c with
  | CreateIndex _ => []
  | FindOne f => filter_keys f
  | UpdateOne f d _ => filter_keys f ++ [sessionId d]
  | DeleteOne f => filter_keys f
  | DeleteMany f => filter_keys f
  | Find f => filter_keys f
  | CountDocuments f => filter_keys f
  end.

(** The id a method is called with. *)
Definition op_sid (op : Op) : option string :=
  match op with
  | OpGet sid => Some sid
  | OpSet sid _ => Some sid
  | OpDestroy sid => Some sid
  | OpTouch sid _ => Some sid
  | _ => None
  end.

(** Every id in the call [c] is the formatted id of the method. *)
Definition keyed_by (pfx : string) (op : Op) (c : Call) : Prop :=
  forall k, In k (call_keys c) ->
            Some k = option_map (fun sid => (pfx ++ sid)%string) (op_sid op).

(** An [updateOne] selects by the [sessionId] it writes, and upserts. *)
Definition writes_own_key (c : Call) : Prop :=
  match c with
  | UpdateOne f d u => f = [sessionId_eq (sessionId d)] /\ u = true
  | _ => True
  end.

(** ** Concrete worlds *)

(** A new engine on an empty collection. *)
Definition sample_world (ttl : Z) : World :=
  mkWorld (new_MongoStoreBase (sample_config ttl)) (mkStorage [] []) 0 [].

(** The world after [set("abc", session)] on the new engine. *)
Definition stored_world (ttl : Z) (session : Payload) : World :=
  snd (run (set "abc" session) (sample_world ttl)).

(** A new engine on a collection that holds one live and one expired record
    when the clock reads 2000. *)
Definition mixed_world (x y : Payload) : World :=
  mkWorld (new_MongoStoreBase (sample_config 10000))
          (mkStorage [mkSession "p:a" x 5000 0; mkSession "p:b" y 1000 0] [])
          2 [].

(** An engine configured without database and collection names. *)
Definition unnamed_world : World :=
  mkWorld (new_MongoStoreBase
             (mkParams (Some (mongoClient 0)) None None None 10000 None None))
          (mkStorage [] []) 0 [].

(** ** Both semantics agree *)

Lemma run_bind {A B : Type} (p : Prog A) (f : A -> Prog B) (w : World) :
  run (bind p f) w =
  match run p w with
  | (Returned a, w') => run (f a) w'
  | (Thrown e, w') => (Thrown e, w')
  end.
Proof.
  revert w; induction p; intros w; simpl; auto.
  destruct (issue c w) as [[r|] w']; auto.
Qed.

Lemma advance_bind {A B : Type} (p : Prog A) (f : A -> Prog B) (w : World) :
  advance (bind p f) w =
  match advance p w with
  | (Finished (Returned a), w') => advance (f a) w'
  | (Finished (Thrown e), w') => (Finished (Thrown e), w')
  | (Suspended p', w') => (Suspended (bind p' f), w')
  end.
Proof.
  revert w; induction p; intros w; simpl; auto.
  destruct (issue c w) as [[r|] w']; auto.
Qed.

Lemma run_advance {A : Type} (p : Prog A) (w : World) :
  run p w =
  match advance p w with
  | (Finished o, w') => (o, w')
  | (Suspended p', w') => run p' w'
  end.
Proof.
  revert w; induction p; intros w; simpl; auto.
  destruct (issue c w) as [[r|] w']; auto.
Qed.

(** ** Sequential behaviour of the methods *)

Ltac open_world w :=
  let hi := fresh "hi" in
  let cfg := fresh "cfg" in
  let cl := fresh "cl" in
  let col := fresh "col" in
  let pfx := fresh "pfx" in
  let ds := fresh "ds" in
  let ixs := fresh "ixs" in
  let tk := fresh "tk" in
  let tr := fresh "tr" in
  destruct w as [[hi cfg cl col pfx] [ds ixs] tk tr].

Ltac storage_ok H :=
  repeat (progress (unfold issue; simpl; rewrite ?H; simpl)).

Lemma run_init_assigned (w : World) :
  client (this w) <> None -> run init w = (Returned tt, w).
Proof.
  open_world w; simpl; intros H.
  destruct cl; [reflexivity | congruence].
Qed.

Lemma run_init_ok (w : World) :
  ready (this w) = true -> no_faults ->
  exists w', run init w = (Returned tt, w') /\ after w 0 (docs (db w)) w'.
Proof.
  intros R F. open_world w. unfold ready, assigned, valid_config in R.
  simpl in R. destruct cl as [c|].
  - destruct col; [|discriminate]. eexists; split; [reflexivity|].
    unfold after; simpl; auto.
  - destruct cfg as [pc pd pcol ps pt pp pi]; simpl in R.
    destruct pc as [c|]; [|discriminate].
    apply andb_prop in R; destruct R as [R1 R2].
    apply negb_true_iff in R1, R2.
    simpl. rewrite R1, R2. storage_ok F.
    unfold native_strategy; simpl.
    repeat match goal with
           | |- context [if ?b then _ else _] => destruct b eqn:?; storage_ok F
           | |- context [match ?b with Some _ => _ | None => _ end] => destruct b eqn:?; storage_ok F
           | |- context [match ?b with native => _ | interval => _ end] => destruct b eqn:?; storage_ok F
           end;
      (eexists; split; [reflexivity|]); unfold after; simpl; auto.
Qed.


Lemma run_readThis {B : Type} (k : This -> Prog B) (w : World) :
  run (bind readThis k) w = run (k (this w)) w.
Proof. reflexivity. Qed.

Lemma run_await_init {B : Type} (k : unit -> Prog B) (w : World) :
  ready (this w) = true -> no_faults ->
  exists w1, after w 0 (docs (db w)) w1 /\
             run (bind (await_ init) k) w = run (k tt) w1.
Proof.
  intros R F. destruct (run_init_ok w R F) as (w1 & E & A).
  exists w1; split; [exact A|].
  unfold await_. rewrite !run_bind, E. reflexivity.
Qed.

Ltac enter_call R F :=
  let w1 := fresh "w1" in
  let A := fresh "A" in
  let E := fresh "E" in
  let Ha := fresh "Ha" in
  let Hp := fresh "Hp" in
  let Hc := fresh "Hc" in
  let Ht := fresh "Ht" in
  let Hd := fresh "Hd" in
  match goal with
  | |- context [run (bind (await_ init) ?k) ?w] =>
    destruct (run_await_init k w R F) as (w1 & A & E);
    rewrite E; clear E;
    destruct A as (Ha & Hp & Hc & Ht & Hd);
    open_world w1; unfold assigned in Ha; simpl in Ha, Hp, Hc, Ht, Hd;
    match type of Ha with
    | match ?c with _ => _ end = _ => destruct c; [|discriminate]
    end;
    match type of Ha with
    | match ?c with _ => _ end = _ => destruct c; [|discriminate]
    end;
    rewrite Nat.add_0_r in Ht; subst;
    simpl; storage_ok F
  end.

Ltac leave_call :=
  eexists; split; [reflexivity|];
  unfold after, assigned, getSid; simpl;
  repeat split; auto; try lia;
  repeat match goal with
         | |- context [match ?x with Some _ => _ | None => _ end] =>
           destruct x; simpl; auto
         end.

Lemma run_get (w : World) (sid : string) :
  ready (this w) = true -> no_faults ->
  exists w',
    run (get sid) w =
    (Returned (option_map data
       (findOne [expiresMs_gt (clock (ticks w));
                 sessionId_eq (getSid (this w) sid)]
                (docs (db w)))), w') /\
    after w 1 (docs (db w)) w'.
Proof.
  intros R F. unfold get. rewrite run_readThis.
  enter_call R F.
  destruct (findOne _ _) as [r|]; simpl; leave_call.
Qed.

Lemma run_set (w : World) (sid : string) (session : Payload) :
  ready (this w) = true -> no_faults ->
  exists w',
    run (set sid session) w = (Returned tt, w') /\
    after w 2
      (updateOne [sessionId_eq (getSid (this w) sid)]
         (mkSession (getSid (this w) sid) session
            (clock (ticks w) + p_ttlMs (config (this w)))%Z
            (clock (S (ticks w))))
         true (docs (db w))) w'.
Proof.
  intros R F. unfold set. enter_call R F.
  leave_call.
Qed.

Lemma run_destroy (w : World) (sid : string) :
  ready (this w) = true -> no_faults ->
  exists w',
    run (destroy sid) w = (Returned tt, w') /\
    after w 0
      (deleteOne [sessionId_eq (getSid (this w) sid)] (docs (db w))) w'.
Proof.
  intros R F. unfold destroy. enter_call R F.
  leave_call.
Qed.

Lemma run_all (w : World) :
  ready (this w) = true -> no_faults ->
  exists w',
    run all w =
    (Returned (map data (find_ [expiresMs_gt (clock (ticks w))] (docs (db w)))),
     w') /\
    after w 1 (docs (db w)) w'.
Proof.
  intros R F. unfold all. enter_call R F. leave_call.
Qed.

Lemma run_length (w : World) :
  ready (this w) = true -> no_faults ->
  exists w',
    run length w =
    (Returned (countDocuments [expiresMs_gt (clock (ticks w))] (docs (db w))),
     w') /\
    after w 1 (docs (db w)) w'.
Proof.
  intros R F. unfold length. enter_call R F. leave_call.
Qed.

Lemma run_clear (w : World) :
  ready (this w) = true -> no_faults ->
  exists w', run clear w = (Returned tt, w') /\ after w 0 [] w'.
Proof.
  intros R F. unfold clear. enter_call R F. leave_call.
  induction (docs (db w)); simpl; auto.
Qed.

Lemma run_removeExpiredSessions (w : World) :
  ready (this w) = true -> no_faults ->
  exists w',
    run removeExpiredSessions w = (Returned tt, w') /\
    after w 1 (deleteMany [expiresMs_lt (clock (ticks w))] (docs (db w))) w'.
Proof.
  intros R F. unfold removeExpiredSessions. enter_call R F. leave_call.
Qed.


(** ** The documents: liveness and the uniqueness of [sessionId] *)

Lemma append_nonempty (p s : string) : p <> "" -> (p ++ s)%string <> s.
Proof.
  intros P H.
  assert (L : forall a b, String.length (a ++ b)%string =
                          String.length a + String.length b).
  { induction a as [|c a IH]; simpl; intros b; auto. }
  apply (f_equal String.length) in H. rewrite L in H.
  destruct p; [congruence | simpl in H; lia].
Qed.

Lemma matches_key (k : string) (d : SessionData) :
  matches [sessionId_eq k] d = has_key k d.
Proof. unfold matches, has_key; simpl. apply andb_true_r. Qed.

Lemma matches_gt (t : Z) (d : SessionData) :
  matches [expiresMs_gt t] d = live t d.
Proof. unfold matches, live; simpl. apply andb_true_r. Qed.

Lemma matches_lt (t : Z) (d : SessionData) :
  matches [expiresMs_lt t] d = (expiresMs d <? t)%Z.
Proof. unfold matches; simpl. apply andb_true_r. Qed.

Lemma matches_gt_key (t : Z) (k : string) (d : SessionData) :
  matches [expiresMs_gt t; sessionId_eq k] d = live t d && has_key k d.
Proof. unfold matches, live, has_key; simpl. rewrite andb_true_r. reflexivity. Qed.

#[local] Arguments matches : simpl never.

Lemma has_key_true (k : string) (d : SessionData) :
  has_key k d = true <-> sessionId d = k.
Proof. unfold has_key. apply String.eqb_eq. Qed.

Lemma has_key_false (k : string) (d : SessionData) :
  has_key k d = false <-> sessionId d <> k.
Proof. unfold has_key. apply String.eqb_neq. Qed.

Lemma has_key_In (k : string) (l : list SessionData) :
  ~ In k (map sessionId l) -> forall d, In d l -> has_key k d = false.
Proof.
  intros H d Hd. apply has_key_false. intros E. apply H.
  rewrite <- E. apply in_map. exact Hd.
Qed.

Lemma filter_none (P : SessionData -> bool) (l : list SessionData) :
  (forall d, In d l -> P d = false) -> filter P l = [].
Proof.
  induction l as [|x r IH]; simpl; intros H; auto.
  rewrite (H x) by auto. apply IH. intros d Hd. apply H. auto.
Qed.

Lemma find_none (P : SessionData -> bool) (l : list SessionData) :
  (forall d, In d l -> P d = false) -> find P l = None.
Proof.
  induction l as [|x r IH]; simpl; intros H; auto.
  rewrite (H x) by auto. apply IH. intros d Hd. apply H. auto.
Qed.

(** With unique ids, looking a key up finds the one record that has it. *)
Lemma findOne_unique (t : Z) (d : SessionData) (l : list SessionData) :
  unique_ids l -> In d l ->
  findOne [expiresMs_gt t; sessionId_eq (sessionId d)] l =
  if live t d then Some d else None.
Proof.
  unfold unique_ids, findOne.
  induction l as [|x r IH]; simpl; intros U H; [contradiction|].
  inversion U as [|? ? Hx Ur]; subst.
  rewrite matches_gt_key. destruct H as [->|H].
  - assert (K : has_key (sessionId d) d = true) by (apply has_key_true; auto).
    rewrite K, andb_true_r. destruct (live t d); auto.
    apply find_none. intros e He. rewrite matches_gt_key.
    rewrite (has_key_In _ _ Hx e He). apply andb_false_r.
  - assert (K : has_key (sessionId d) x = false).
    { apply has_key_false. intros E. apply Hx. rewrite E.
      apply in_map. exact H. }
    rewrite K, andb_false_r. apply IH; auto.
Qed.

Lemma findOne_absent (t : Z) (k : string) (l : list SessionData) :
  (forall d, In d l -> sessionId d = k -> live t d = false) ->
  findOne [expiresMs_gt t; sessionId_eq k] l = None.
Proof.
  intros H. apply find_none. intros d Hd. rewrite matches_gt_key.
  destruct (has_key k d) eqn:K; [|apply andb_false_r].
  rewrite (H d Hd); auto. apply has_key_true; auto.
Qed.

Lemma findOne_some (f : Filter) (l : list SessionData) (d : SessionData) :
  findOne f l = Some d -> In d l /\ matches f d = true.
Proof. unfold findOne. apply find_some. Qed.

(** [updateOne] with [upsert] on the key of the document it writes. *)
Section Upsert.

Variable k : string.
Variable d : SessionData.
Hypothesis key_d : sessionId d = k.

Lemma update_first_none (l : list SessionData) :
  update_first [sessionId_eq k] d l = None <-> ~ In k (map sessionId l).
Proof.
  induction l as [|x r IH]; simpl; [tauto|].
  rewrite matches_key. destruct (has_key k x) eqn:K.
  - apply has_key_true in K. split; [discriminate|]. intros H; exfalso; auto.
  - apply has_key_false in K. destruct IH as [I1 I2].
    destruct (update_first _ d r) as [r'|]; split; intros H; auto.
    + discriminate.
    + assert (E : Some r' = None) by (apply I2; tauto). discriminate.
    + intros [H1|H1]; [auto|]. apply I1; auto.
Qed.

Lemma update_first_some (l l' : list SessionData) :
  update_first [sessionId_eq k] d l = Some l' ->
  map sessionId l' = map sessionId l /\
  findOne [sessionId_eq k] l' = Some d /\
  (forall P, (forall e, has_key k e = true -> P e = false) ->
             filter P l' = filter P l).
Proof.
  revert l'; induction l as [|x r IH]; simpl; intros l' H; [discriminate|].
  rewrite matches_key in H. destruct (has_key k x) eqn:K.
  - inversion H; subst; clear H. apply has_key_true in K.
    unfold findOne; simpl. rewrite matches_key.
    assert (Kd : has_key (sessionId d) d = true) by (apply has_key_true; auto).
    rewrite Kd. repeat split; [congruence|].
    intros P HP. rewrite (HP d Kd), (HP x); auto. apply has_key_true; auto.
  - destruct (update_first _ d r) as [r'|]; [|discriminate].
    inversion H; subst; clear H. destruct (IH r' eq_refl) as (M & Fd & Fl).
    unfold findOne in *; simpl. rewrite matches_key, K, M.
    repeat split; auto. intros P HP. rewrite (Fl P HP). reflexivity.
Qed.

(** The record is there afterwards, and it is the first with its key. *)
Lemma upsert_findOne (l : list SessionData) :
  findOne [sessionId_eq k] (updateOne [sessionId_eq k] d true l) = Some d.
Proof.
  unfold updateOne. destruct (update_first _ d l) as [l'|] eqn:E.
  - apply (update_first_some l l' E).
  - apply update_first_none in E. unfold findOne.
    assert (Kd : has_key k d = true) by (apply has_key_true; auto).
    clear key_d. induction l as [|x r IH]; simpl.
    + rewrite matches_key, Kd. reflexivity.
    + rewrite matches_key. rewrite (has_key_In k (x :: r) E x) by (left; auto).
      apply IH. intros H. apply E. simpl; auto.
Qed.

(** Documents with other keys are left as they were. *)
Lemma upsert_others (P : SessionData -> bool) (l : list SessionData) :
  (forall e, has_key k e = true -> P e = false) ->
  filter P (updateOne [sessionId_eq k] d true l) = filter P l.
Proof.
  intros HP. unfold updateOne.
  destruct (update_first _ d l) as [l'|] eqn:E.
  - apply (update_first_some l l' E); auto.
  - rewrite filter_app; simpl. rewrite (HP d), app_nil_r; auto.
    apply has_key_true; auto.
Qed.

(** Uniqueness of ids is kept, and exactly one record has the key. *)
Lemma upsert_unique (l : list SessionData) :
  unique_ids l -> unique_ids (updateOne [sessionId_eq k] d true l).
Proof.
  unfold unique_ids, updateOne. intros U.
  destruct (update_first _ d l) as [l'|] eqn:E.
  - destruct (update_first_some l l' E) as (M & _). rewrite M. exact U.
  - apply update_first_none in E. rewrite map_app; simpl.
    apply NoDup_app; auto.
    + repeat constructor; simpl; tauto.
    + intros x Hx [H|[]]. apply E. rewrite <- key_d, H. exact Hx.
Qed.

Lemma filter_key_unique (l : list SessionData) (e : SessionData) :
  unique_ids l -> In e l -> filter (has_key (sessionId e)) l = [e].
Proof.
  unfold unique_ids. induction l as [|x r IH]; simpl; intros U H; [contradiction|].
  inversion U as [|? ? Hx Ur]; subst. destruct H as [->|H].
  - assert (K : has_key (sessionId e) e = true) by (apply has_key_true; auto).
    rewrite K. f_equal. apply filter_none. apply has_key_In. exact Hx.
  - assert (K : has_key (sessionId e) x = false).
    { apply has_key_false. intros E. apply Hx. rewrite E. apply in_map; auto. }
    rewrite K. apply IH; auto.
Qed.

Lemma upsert_one_record (l : list SessionData) :
  unique_ids l ->
  filter (has_key k) (updateOne [sessionId_eq k] d true l) = [d].
Proof.
  intros U. rewrite <- key_d. apply filter_key_unique.
  - rewrite key_d. apply upsert_unique; auto.
  - rewrite key_d. destruct (findOne_some _ _ _ (upsert_findOne l)); auto.
Qed.

End Upsert.

Lemma deleteOne_incl (f : Filter) (l : list SessionData) :
  incl (deleteOne f l) l.
Proof.
  induction l as [|x r IH]; simpl; [apply incl_refl|].
  destruct (matches f x); [apply incl_tl, incl_refl|].
  apply incl_cons; [left; auto | apply incl_tl; auto].
Qed.

Lemma deleteOne_unique (f : Filter) (l : list SessionData) :
  unique_ids l -> unique_ids (deleteOne f l).
Proof.
  unfold unique_ids. induction l as [|x r IH]; simpl; intros U; auto.
  inversion U as [|? ? Hx Ur]; subst.
  destruct (matches f x); auto. simpl. constructor; auto.
  intros H. apply Hx. apply in_map_iff in H. destruct H as (e & E & He).
  apply in_map_iff. exists e; split; auto. apply (deleteOne_incl f r); auto.
Qed.

Lemma filter_unique (P : SessionData -> bool) (l : list SessionData) :
  unique_ids l -> unique_ids (filter P l).
Proof.
  unfold unique_ids. induction l as [|x r IH]; simpl; intros U; auto.
  inversion U as [|? ? Hx Ur]; subst.
  destruct (P x); auto. simpl. constructor; auto.
  intros H. apply Hx. apply in_map_iff in H. destruct H as (e & E & He).
  apply in_map_iff. exists e; split; auto. apply filter_In in He. tauto.
Qed.


(** ** The claims about single calls *)

Lemma get_result (w : World) (sid : string) :
  ready (this w) = true -> no_faults ->
  fst (run (get sid) w) =
  Returned (option_map data
    (findOne [expiresMs_gt (clock (ticks w)); sessionId_eq (getSid (this w) sid)]
             (docs (db w)))).
Proof.
  intros R F. destruct (run_get w sid R F) as (w' & E & _). rewrite E. reflexivity.
Qed.

Lemma set_result (w : World) (sid : string) (session : Payload) :
  ready (this w) = true -> no_faults ->
  fst (run (set sid session) w) = Returned tt /\
  after w 2
    (updateOne [sessionId_eq (getSid (this w) sid)]
       (mkSession (getSid (this w) sid) session
          (clock (ticks w) + p_ttlMs (config (this w)))%Z
          (clock (S (ticks w))))
       true (docs (db w)))
    (snd (run (set sid session) w)).
Proof.
  intros R F. destruct (run_set w sid session R F) as (w' & E & A).
  rewrite E. split; [reflexivity | exact A].
Qed.

Lemma assigned_client (t : This) : assigned t = true -> client t <> None.
Proof. unfold assigned. destruct (client t); [discriminate | discriminate]. Qed.

Lemma assigned_ready (t : This) : assigned t = true -> ready t = true.
Proof.
  intros A. unfold ready. pose proof (assigned_client t A).
  destruct (client t); [exact A | congruence].
Qed.

Lemma after_ready (w : World) (n : nat) (l : list SessionData) (w' : World) :
  after w n l w' -> ready (this w') = true.
Proof.
  intros (A & _). unfold ready. unfold assigned in *.
  destruct (client (this w')); [exact A | discriminate].
Qed.

Lemma live_gt (t : Z) (d : SessionData) :
  live t d = true <-> (expiresMs d > t)%Z.
Proof. unfold live. rewrite Z.gtb_ltb, Z.ltb_lt. lia. Qed.

Lemma live_le (t : Z) (d : SessionData) :
  live t d = false <-> (expiresMs d <= t)%Z.
Proof. unfold live. rewrite Z.gtb_ltb, Z.ltb_ge. lia. Qed.

(** C2.  On a collection with unique ids, [get(sid)] returns the payload [p]
    exactly when a record with [sessionId = prefix + sid] and an expiry
    strictly greater than the time [get] reads is stored with that payload; it
    returns [null] exactly when there is no such record, and in both cases it
    returns and does not throw.  For a record written by [set] at
    [writeTime] with [ttlMs = T], a [get] that reads the time [now] returns
    the payload when [now < writeTime + T] and [null] when
    [now >= writeTime + T] (so always, when [T = 0] and the clock has not gone
    back). *)
Theorem get_returns_live_record (w : World) (sid : string) :
  ready (this w) = true -> no_faults -> unique_ids (docs (db w)) ->
  (forall p,
      fst (run (get sid) w) = Returned (Some p) <->
      exists d, In d (docs (db w)) /\
                sessionId d = getSid (this w) sid /\
                (expiresMs d > clock (ticks w))%Z /\
                data d = p) /\
  (fst (run (get sid) w) = Returned None <->
   forall d, In d (docs (db w)) -> sessionId d = getSid (this w) sid ->
             ~ (expiresMs d > clock (ticks w))%Z) /\
  (exists r, fst (run (get sid) w) = Returned r) /\
  (forall session,
      let w1 := snd (run (set sid session) w) in
      let writeTime := clock (ticks w) in
      let T := p_ttlMs (config (this w)) in
      let now_ := clock (ticks w1) in
      ((now_ < writeTime + T)%Z ->
       fst (run (get sid) w1) = Returned (Some session)) /\
      ((now_ >= writeTime + T)%Z ->
       fst (run (get sid) w1) = Returned None)).
Proof.
  intros R F U. rewrite (get_result w sid R F).
  set (k := getSid (this w) sid). set (t := clock (ticks w)).
  split; [|split; [|split]].
  - intros p; split.
    + intros H. inversion H as [H1]; clear H.
      destruct (findOne _ _) as [d|] eqn:E; [|discriminate].
      inversion H1; subst; clear H1.
      apply findOne_some in E. destruct E as (Hd & M).
      rewrite matches_gt_key in M. apply andb_prop in M. destruct M as (L & K).
      exists d. repeat split; auto.
      * apply has_key_true; auto.
      * apply live_gt; auto.
    + intros (d & Hd & K & L & D). rewrite <- K.
      rewrite (findOne_unique t d _ U Hd).
      apply live_gt in L. rewrite L. simpl. rewrite D. reflexivity.
  - split.
    + intros H d Hd K L. rewrite <- K in H.
      rewrite (findOne_unique t d _ U Hd) in H.
      apply live_gt in L. rewrite L in H. discriminate.
    + intros H. rewrite findOne_absent; [reflexivity|].
      intros d Hd K. apply live_le.
      specialize (H d Hd K). lia.
  - eexists; reflexivity.
  - intros session w1 writeTime T now_.
    destruct (set_result w sid session R F) as (_ & A).
    fold w1 in A. pose proof (after_ready _ _ _ _ A) as R1.
    rewrite (get_result w1 sid R1 F).
    destruct A as (_ & Hp & Hc & Ht & Hd). rewrite Hd. fold k.
    replace (getSid (this w1) sid) with k
      by (unfold k, getSid; rewrite Hp; reflexivity).
    set (d := mkSession k session _ _).
    assert (Kd : sessionId d = k) by reflexivity.
    assert (Hin : In d (updateOne [sessionId_eq k] d true (docs (db w)))).
    { destruct (findOne_some _ _ _ (upsert_findOne k d Kd (docs (db w)))); auto. }
    rewrite <- Kd at 2 4.
    rewrite (findOne_unique _ d _ (upsert_unique k d Kd _ U) Hin).
    split; intros L.
    + assert (Ld : live (clock (ticks w1)) d = true).
      { apply live_gt. subst d now_ writeTime T. simpl. lia. }
      rewrite Ld. reflexivity.
    + assert (Ld : live (clock (ticks w1)) d = false).
      { apply live_le. subst d now_ writeTime T. simpl. lia. }
      rewrite Ld. reflexivity.
Qed.


(** C4, as the code has it.  On a collection with unique ids,
    [set(sid, payload)] leaves exactly one record with
    [sessionId = prefix + sid]; it holds the payload and the expiry
    [now + ttlMs] for the time [now] that [set] reads.  Its [updatedAt] is
    not that [now] but a second reading of the clock, the [new Date()] taken
    when the update document is built; the two are equal only when the
    clock has not moved in between.  The records with
    other ids are left as they were and ids stay unique, so a second [set]
    for the same id again leaves exactly one record, with the later payload
    and the refreshed expiry. *)
Theorem set_upserts_one_record (w : World) (sid : string) (session : Payload) :
  ready (this w) = true -> no_faults -> unique_ids (docs (db w)) ->
  let key := getSid (this w) sid in
  let ttl := p_ttlMs (config (this w)) in
  let w1 := snd (run (set sid session) w) in
  fst (run (set sid session) w) = Returned tt /\
  filter (has_key key) (docs (db w1)) =
    [mkSession key session (clock (ticks w) + ttl)%Z (clock (S (ticks w)))] /\
  (clock (S (ticks w)) = clock (ticks w) ->
   filter (has_key key) (docs (db w1)) =
     [mkSession key session (clock (ticks w) + ttl)%Z (clock (ticks w))]) /\
  filter (fun e => negb (has_key key e)) (docs (db w1)) =
    filter (fun e => negb (has_key key e)) (docs (db w)) /\
  unique_ids (docs (db w1)) /\
  forall session2,
    let w2 := snd (run (set sid session2) w1) in
    fst (run (set sid session2) w1) = Returned tt /\
    filter (has_key key) (docs (db w2)) =
      [mkSession key session2 (clock (ticks w1) + ttl)%Z
                 (clock (S (ticks w1)))] /\
    unique_ids (docs (db w2)).
Proof.
  intros R F U key ttl w1.
  destruct (set_result w sid session R F) as (E & A). fold w1 in A.
  pose proof (after_ready _ _ _ _ A) as R1.
  destruct A as (_ & Hp & Hc & Ht & Hd). fold key in Hd. fold ttl in Hd.
  assert (U1 : unique_ids (docs (db w1))).
  { rewrite Hd. apply upsert_unique; auto. }
  split; [exact E|]. split; [|split; [|split; [|split]]]; auto.
  - rewrite Hd. apply upsert_one_record; auto.
  - intros Same. rewrite <- Same at 2. rewrite Hd.
    apply upsert_one_record; auto.
  - rewrite Hd. apply upsert_others; auto.
    intros e K. rewrite K. reflexivity.
  - intros session2 w2.
    destruct (set_result w1 sid session2 R1 F) as (E2 & A2). fold w2 in A2.
    destruct A2 as (_ & _ & _ & _ & Hd2).
    replace (getSid (this w1) sid) with key in Hd2
      by (unfold key, getSid; rewrite Hp; reflexivity).
    rewrite Hc in Hd2. fold ttl in Hd2.
    split; [exact E2|]. rewrite Hd2. split.
    + apply upsert_one_record; auto.
    + apply upsert_unique; auto.
Qed.

(** C3.  [removeExpiredSessions()] deletes the records whose expiry is
    strictly less than the time it reads, and no others.  A record whose
    expiry equals that time is kept, while [get] for its id, reading the
    same time, returns [null]. *)
Theorem sweep_keeps_boundary_record (w : World) :
  ready (this w) = true -> no_faults -> unique_ids (docs (db w)) ->
  let t := clock (ticks w) in
  let w1 := snd (run removeExpiredSessions w) in
  fst (run removeExpiredSessions w) = Returned tt /\
  docs (db w1) = filter (fun d => negb (expiresMs d <? t)%Z) (docs (db w)) /\
  (forall d, In d (docs (db w1)) <->
             In d (docs (db w)) /\ ~ (expiresMs d < t)%Z) /\
  (forall d sid, In d (docs (db w)) -> expiresMs d = t ->
                 sessionId d = getSid (this w) sid ->
                 In d (docs (db w1)) /\
                 fst (run (get sid) w) = Returned None).
Proof.
  intros R F U t w1.
  destruct (run_removeExpiredSessions w R F) as (w' & E & A).
  assert (W : w1 = w') by (unfold w1; rewrite E; reflexivity).
  rewrite E. cbn [fst]. rewrite W. clear W w1.
  destruct A as (_ & _ & _ & _ & Hd). fold t in Hd.
  assert (D : docs (db w') =
              filter (fun d => negb (expiresMs d <? t)%Z) (docs (db w))).
  { rewrite Hd. unfold deleteMany. apply filter_ext.
    intros d. rewrite matches_lt. reflexivity. }
  assert (I : forall d, In d (docs (db w')) <->
                        In d (docs (db w)) /\ ~ (expiresMs d < t)%Z).
  { intros d. rewrite D, filter_In, negb_true_iff, Z.ltb_ge. intuition lia. }
  split; [reflexivity|]. split; [exact D|]. split; [exact I|].
  intros d sid Hin Ht K. split.
  - apply I. split; auto. lia.
  - rewrite (get_result w sid R F). rewrite <- K.
    rewrite (findOne_unique _ d _ U Hin).
    assert (L : live (clock (ticks w)) d = false) by (apply live_le; fold t; lia).
    rewrite L. reflexivity.
Qed.

(** C7.  [length()] and [all()], reading the same time, agree: when the
    collection holds [N] records that expire strictly later and [M] that do
    not, [length()] returns [N] and [all()] returns the payloads of the [N]
    live records and of no other. *)
Theorem length_all_agree (w : World) (N M : nat) :
  ready (this w) = true -> no_faults ->
  let t := clock (ticks w) in
  N = List.length (filter (live t) (docs (db w))) ->
  M = List.length (filter (fun d => negb (live t d)) (docs (db w))) ->
  fst (run length w) = Returned N /\
  fst (run all w) = Returned (map data (filter (live t) (docs (db w)))) /\
  List.length (map data (filter (live t) (docs (db w)))) = N /\
  N + M = List.length (docs (db w)).
Proof.
  intros R F t HN HM.
  destruct (run_length w R F) as (w1 & E1 & _).
  destruct (run_all w R F) as (w2 & E2 & _).
  rewrite E1, E2. cbn [fst]. fold t.
  assert (X : filter (matches [expiresMs_gt t]) (docs (db w)) =
              filter (live t) (docs (db w))).
  { apply filter_ext. intros d. apply matches_gt. }
  unfold countDocuments, find_. rewrite X, length_map, <- HN.
  repeat split; auto.
  subst N M. clear. induction (docs (db w)) as [|x r IH]; simpl; auto.
  destruct (live t x); simpl; lia.
Qed.

(** C9.  [clear()] removes every record, live or expired; right after it
    [length()] returns 0 and [all()] returns the empty sequence. *)
Theorem clear_removes_everything (w : World) :
  ready (this w) = true -> no_faults ->
  let w1 := snd (run clear w) in
  fst (run clear w) = Returned tt /\
  docs (db w1) = [] /\
  fst (run length w1) = Returned 0 /\
  fst (run all w1) = Returned [].
Proof.
  intros R F w1.
  destruct (run_clear w R F) as (w' & E & A).
  assert (W : w1 = w') by (unfold w1; rewrite E; reflexivity).
  rewrite E, W. cbn [fst].
  pose proof (after_ready _ _ _ _ A) as R1.
  destruct A as (_ & _ & _ & _ & Hd).
  destruct (run_length w' R1 F) as (w2 & E2 & _).
  destruct (run_all w' R1 F) as (w3 & E3 & _).
  rewrite E2, E3, Hd. repeat split; reflexivity.
Qed.


(** ** Programs that owe: one stretch, and a whole run *)
Section Safety.

Variable I : This -> Prop.
Variable Q : Call -> Prop.

Lemma Owes_weaken {A : Type} (l : list string) (p : Prog A) :
  Owes I Q [] p -> Owes I Q l p.
Proof. intros H. induction l; [exact H | apply Owes_skip; assumption]. Qed.

Lemma Owes_bind {A B : Type} (l : list string) (p : Prog A) (f : A -> Prog B) :
  Owes I Q l p -> (forall a, Owes I Q [] (f a)) -> Owes I Q l (bind p f).
Proof.
  intros H Hf. induction H; simpl.
  - apply Owes_weaken, Hf.
  - apply Owes_throw.
  - apply Owes_read; auto.
  - apply Owes_write; auto.
  - apply Owes_now; auto.
  - apply Owes_await; auto.
  - apply Owes_index; auto.
  - apply Owes_yield; auto.
  - apply Owes_skip; auto.
Qed.

(** One stretch of a program that owes [l]: it receives at most one call,
    which is allowed by [Q] or creates an index named in [l], and what is
    left of the program owes what comes after that name. *)
Lemma advance_owes {A : Type} (l : list string) (p : Prog A) (w : World) :
  Owes I Q l p -> I (this w) ->
  I (this (snd (advance p w))) /\
  ((trace (snd (advance p w)) = trace w /\
    stop_owes I Q l (fst (advance p w))) \/
   (exists c, trace (snd (advance p w)) = trace w ++ [c] /\ Q c /\
              stop_owes I Q l (fst (advance p w))) \/
   (exists spec l1 l2,
       trace (snd (advance p w)) = trace w ++ [CreateIndex spec] /\
       l = l1 ++ idx_name spec :: l2 /\
       stop_owes I Q l2 (fst (advance p w)))).
Proof.
  intros H. revert w. induction H; intros w Hw; simpl.
  - auto.
  - auto.
  - apply H0; auto.
  - exact (IHOwes (write f w) (H _ Hw)).
  - exact (H0 _ (tick w) Hw).
  - unfold issue. destruct (fault _); simpl; split; auto; right; left;
      exists c; repeat split; auto. apply Owes_throw.
  - unfold issue. destruct (fault _); simpl; split; auto; right; right;
      exists spec, [], l; repeat split; auto. apply Owes_throw.
  - split; auto.
  - destruct (IHOwes w Hw) as (Hi & [(T & S)|[(c & T & Hc & S)|(spec & l1 & l2 & T & E & S)]]).
    + split; auto. left. split; auto.
      destruct (fst (advance p w)); simpl in *; auto. apply Owes_skip; auto.
    + split; auto. right; left. exists c. repeat split; auto.
      destruct (fst (advance p w)); simpl in *; auto. apply Owes_skip; auto.
    + split; auto. right; right. exists spec, (n :: l1), l2.
      repeat split; auto. simpl. congruence.
Qed.

(** A whole run of a program that owes nothing: [I] is kept, every call
    received is allowed by [Q], and what the allowed calls keep of the
    collection is kept. *)
Variable J : Storage -> Prop.
Hypothesis J_kept : forall c s, Q c -> J s -> J (snd (exec c s)).

Lemma run_owes {A : Type} (l : list string) (p : Prog A) (w : World) :
  Owes I Q l p -> l = [] -> I (this w) -> J (db w) ->
  I (this (snd (run p w))) /\
  J (db (snd (run p w))) /\
  exists new, trace (snd (run p w)) = trace w ++ new /\ Forall Q new.
Proof.
  intros H. revert w. induction H; intros w E Hw Jw; simpl; try discriminate.
  - repeat split; auto. exists []. rewrite app_nil_r. auto.
  - repeat split; auto. exists []. rewrite app_nil_r. auto.
  - apply H0; auto.
  - exact (IHOwes (write f w) E (H _ Hw) Jw).
  - exact (H0 _ (tick w) E Hw Jw).
  - unfold issue. destruct (fault _); simpl.
    + repeat split; auto. exists [c]. auto.
    + destruct (H1 (fst (exec c (db w)))
                   (mkWorld (this w) (snd (exec c (db w))) (ticks w)
                            (trace w ++ [c])) E Hw (J_kept c _ H Jw))
        as (Hi & Hj & new & T & Fa).
      repeat split; auto. exists (c :: new). simpl in T.
      rewrite T, <- app_assoc. split; auto.
  - apply IHOwes; auto.
Qed.

End Safety.


Ltac owes_with solve_q :=
  simpl;
  repeat
    (match goal with
     | |- Owes _ _ _ (Ret _) => apply Owes_ret
     | |- Owes _ _ _ (Throw _) => apply Owes_throw
     | |- Owes _ _ _ (Yield _) => apply Owes_yield
     | |- Owes _ _ _ (Now _) => apply Owes_now; intros ?
     | |- Owes _ _ _ (ReadThis _) => apply Owes_read; intros ? ?
     | |- Owes _ _ _ (WriteThis _ _) =>
       apply Owes_write; [intros ? ?; simpl in *; solve [auto] |]
     | |- Owes ?I ?Q (_ :: ?l) (Await (CreateIndex ?spec) ?k) =>
       first [ refine (@Owes_index I Q _ l spec k _); intros ?
             | apply Owes_await; [solve_q | intros ?]
             | apply Owes_skip ]
     | |- Owes _ _ [] (Await (CreateIndex _) _) =>
       apply Owes_await; [solve_q | intros ?]
     | |- Owes _ _ _ (Await _ _) => apply Owes_await; [solve_q | intros ?]
     | |- Owes _ _ _ (match ?x with _ => _ end) =>
       destruct x eqn:?; try congruence
     | |- Owes _ _ _ (writeThis _) => unfold writeThis
     | |- Owes _ _ _ (await_ _) => unfold await_
     | |- Owes _ _ _ (call _) => unfold call
     | |- Owes _ _ _ (bind ?p _) =>
       match p with
       | context [match ?x with _ => _ end] => destruct x eqn:?; try congruence
       end
     end; simpl).

(** ** Initialization under the event loop *)

Lemma invoke_owes (op : Op) : Owes client_assigned data_call [] (invoke op).
Proof.
  unfold client_assigned.
  destruct op; unfold invoke, get, set, destroy, all, length, clear, touch,
               removeExpiredSessions;
    owes_with ltac:(reflexivity).
Qed.


Lemma init_owes : Owes client_assigned data_call [] init.
Proof. unfold client_assigned, init. owes_with ltac:(reflexivity). Qed.

(** From the moment [this.client] is assigned, [init] returns at once: it
    makes no call and does not wait, whether the first call of [init] has
    finished or not. *)
Lemma advance_init_assigned (w : World) :
  client (this w) <> None -> advance init w = (Finished (Returned tt), w).
Proof.
  open_world w; simpl; intros H.
  destruct cl; [reflexivity | congruence].
Qed.

Lemma advance_init_fresh (w : World) :
  client (this w) = None -> fresh_step w (advance init w).
Proof.
  open_world w; simpl; intros H; subst cl. unfold fresh_step, valid_config.
  destruct cfg as [pc pd pcol ps pt pp pi]; simpl.
  destruct pc as [c|]; [|left; split; [reflexivity | eexists; reflexivity]].
  destruct (falsy pd); [left; split; [reflexivity | eexists; reflexivity]|].
  destruct (falsy pcol); [left; split; [reflexivity | eexists; reflexivity]|].
  right. simpl. unfold issue; simpl.
  destruct (fault _); simpl; (split; [reflexivity|]); (split; [congruence|]);
    (split; [reflexivity|]);
    (eexists; split; [reflexivity|]); unfold client_assigned, later_indexes.
  - apply Owes_throw.
  - owes_with ltac:(reflexivity).
Qed.

Lemma fresh_step_bind {A B : Type} (p : Prog A) (f : A -> Prog B) (w : World) :
  fresh_step w (advance p w) ->
  (forall a, Owes client_assigned data_call [] (f a)) ->
  fresh_step w (advance (bind p f) w).
Proof.
  intros [(V & e & E)|(V & C & T & p' & E & O)] Hf; rewrite advance_bind.
  - rewrite E. left. split; [exact V|]. exists e. reflexivity.
  - destruct (advance p w) as [st w']; simpl in *. subst st.
    right. simpl. repeat split; auto.
    exists (bind p' f). split; auto. apply Owes_bind; auto.
Qed.

Lemma advance_readThis {B : Type} (k : This -> Prog B) (w : World) :
  advance (bind readThis k) w = advance (k (this w)) w.
Proof. reflexivity. Qed.

Lemma advance_invoke_fresh (op : Op) (w : World) :
  client (this w) = None -> fresh_step w (advance (invoke op) w).
Proof.
  intros H.
  assert (X : forall B (k : unit -> Prog B),
             (forall a, Owes client_assigned data_call [] (k a)) ->
             fresh_step w (advance (bind (await_ init) k) w)).
  { intros B k Hk. apply fresh_step_bind; auto. unfold await_.
    apply fresh_step_bind; [apply advance_init_fresh; auto|].
    intros a. apply Owes_yield, Owes_ret. }
  destruct op; unfold invoke; apply fresh_step_bind;
    try (intros a; apply Owes_ret);
    unfold get, set, destroy, all, length, clear, touch, removeExpiredSessions;
    rewrite ?advance_readThis; apply X; intros a;
    unfold client_assigned, set; owes_with ltac:(reflexivity).
Qed.


Lemma index_names_app (a b : list Call) :
  index_names (a ++ b) = index_names a ++ index_names b.
Proof. unfold index_names. apply flat_map_app. Qed.

Lemma index_names_data (c : Call) : data_call c -> index_names [c] = [].
Proof. destruct c; simpl; intros H; auto. discriminate. Qed.

Lemma replace_nth_split {A : Type} (l : list A) (i : nat) (x : A) :
  nth_error l i = Some x ->
  exists xs ys, l = xs ++ x :: ys /\
                forall y, replace_nth i y l = xs ++ y :: ys.
Proof.
  revert i; induction l as [|a r IH]; intros [|i] H; simpl in H; try discriminate.
  - inversion H; subst. exists [], r. split; auto.
  - destruct (IH i H) as (xs & ys & E & R).
    exists (a :: xs), ys. split; [simpl; congruence|].
    intros y. simpl. rewrite R. reflexivity.
Qed.

Lemma concat_all_nil {A B : Type} (l : list A) :
  List.concat (map (fun _ => @nil B) l) = [].
Proof. induction l; simpl; auto. Qed.

Lemma NoDup_moved (n : string) (a b l1 l2 c : list string) :
  NoDup (a ++ b ++ (l1 ++ n :: l2) ++ c) ->
  NoDup ((a ++ [n]) ++ b ++ l2 ++ c).
Proof.
  rewrite !(NoDup_count_occ string_dec). intros H x. specialize (H x).
  rewrite !count_occ_app in *. simpl in *.
  destruct (string_dec n x); lia.
Qed.

Lemma index_names_In (n : string) (tr new : list Call) :
  In n (index_names tr) -> In n (index_names (tr ++ new)).
Proof. intros H. rewrite index_names_app. apply in_or_app. auto. Qed.

Lemma Fresh_boot (cfg : MongoStoreParams) (s0 : Storage) : Fresh (boot cfg s0).
Proof. repeat split; simpl; auto. Qed.

(** A call on an engine whose client is not assigned: with a configuration
    that fails a check nothing changes, otherwise the setup starts. *)
Lemma Fresh_invoke (s : Sys) (op : Op) :
  Fresh s ->
  (valid_config (config (this (world s))) = false /\
   world (sched_step s (Invoke op)) = world s /\
   Fresh (sched_step s (Invoke op))) \/
  (valid_config (config (this (world s))) = true /\
   Started (sched_step s (Invoke op))).
Proof.
  intros (Hc & Hh & Hn & Hp). simpl.
  destruct (advance_invoke_fresh op (world s) Hc)
    as [(V & e & E)|(V & C & T & p & E & O)].
  - left. split; [exact V|]. rewrite E; simpl. split; [reflexivity|].
    repeat split; auto. apply Forall_app; split; auto.
  - right. split; [exact V|]. split; [exact C|]. simpl. split.
    + rewrite T, index_names_app, Hn. simpl. auto.
    + exists (map (fun _ => []) (pool s) ++ [later_indexes]). split.
      * apply Forall2_app.
        -- clear - Hp. induction Hp as [|t r Ht _ IH]; simpl; constructor; auto.
           destruct t; simpl; [auto | discriminate].
        -- constructor; [|constructor]. rewrite E. exact O.
      * rewrite T, index_names_app, Hn, concat_app, concat_all_nil. simpl.
        repeat constructor; simpl; intuition discriminate.
Qed.

(** Nothing waits while the client is not assigned. *)
Lemma Fresh_resume (s : Sys) (i : nat) :
  Fresh s -> sched_step s (Resume i) = s.
Proof.
  intros (Hc & Hh & Hn & Hp). simpl.
  destruct (nth_error (pool s) i) as [t|] eqn:E; [|reflexivity].
  destruct (replace_nth_split _ _ _ E) as (xs & ys & Ep & R).
  assert (Ft : finished t = true).
  { rewrite Forall_forall in Hp. apply Hp. eapply nth_error_In; eauto. }
  destruct t as [o|p]; [|discriminate]. simpl.
  rewrite R, <- Ep. destruct s; reflexivity.
Qed.

(** Once the setup has started, every step keeps [Started]. *)
Lemma Started_step (s : Sys) (e : Event) : Started s -> Started (sched_step s e).
Proof.
  intros (Hc & Hs & budgets & Hp & Hn). destruct e as [op|i]; simpl.
  - (* a call on an engine whose client is assigned *)
    destruct (advance_owes client_assigned data_call [] (invoke op) (world s)
                           (invoke_owes op) Hc)
      as (Hi & [(T & S)|[(c & T & Hq & S)|(spec & l1 & l2 & _ & E & _)]]).
    + split; [exact Hi|]. simpl. rewrite T. split; [exact Hs|].
      exists (budgets ++ [[]]). split.
      * apply Forall2_app; auto.
      * rewrite concat_app. simpl. rewrite app_nil_r. exact Hn.
    + split; [exact Hi|]. simpl. rewrite T.
      split; [apply index_names_In; exact Hs|].
      exists (budgets ++ [[]]). split.
      * apply Forall2_app; auto.
      * rewrite index_names_app, (index_names_data c Hq), concat_app.
        simpl. rewrite !app_nil_r. exact Hn.
    + destruct l1; discriminate.
  - (* a waiting call is resumed *)
    destruct (nth_error (pool s) i) as [t|] eqn:E;
      [|split; [exact Hc|]; split; [exact Hs|]; exists budgets; auto].
    destruct (replace_nth_split _ _ _ E) as (xs & ys & Ep & R).
    rewrite R. rewrite Ep in Hp.
    apply Forall2_app_inv_l in Hp. destruct Hp as (bx & b' & Hx & Hy & Eb).
    inversion Hy as [|t' l ys' by_ Ht Hys]; subst t' ys' b'. subst budgets.
    destruct t as [o|p]; simpl.
    + split; [exact Hc|]. split; [exact Hs|].
      exists (bx ++ l :: by_). split; auto. apply Forall2_app; auto.
    + simpl in Ht.
      destruct (advance_owes client_assigned data_call l p (world s) Ht Hc)
        as (Hi & [(T & S)|[(c & T & Hq & S)|(spec & l1 & l2 & T & El & S)]]).
      * split; [exact Hi|]. simpl. rewrite T. split; [exact Hs|].
        exists (bx ++ l :: by_). split; auto. apply Forall2_app; auto.
      * split; [exact Hi|]. simpl. rewrite T.
        split; [apply index_names_In; exact Hs|].
        exists (bx ++ l :: by_). split.
        -- apply Forall2_app; auto.
        -- rewrite index_names_app, (index_names_data c Hq), app_nil_r.
           exact Hn.
      * split; [exact Hi|]. simpl. rewrite T.
        split; [apply index_names_In; exact Hs|].
        exists (bx ++ l2 :: by_). split.
        -- apply Forall2_app; auto.
        -- rewrite index_names_app. simpl.
           rewrite concat_app in *. simpl in *. subst l.
           apply NoDup_moved with (l1 := l1). exact Hn.
Qed.

Lemma Started_sched (evs : list Event) (s : Sys) :
  Started s -> Started (sched evs s).
Proof.
  revert s. induction evs as [|e r IH]; intros s H; simpl; auto.
  apply IH. apply Started_step. exact H.
Qed.

Lemma Inv_step (s : Sys) (e : Event) : Inv s -> Inv (sched_step s e).
Proof.
  intros [F|S]; [|right; apply Started_step; exact S].
  destruct e as [op|i].
  - destruct (Fresh_invoke s op F) as [(_ & _ & F')|(_ & S')];
      [left; exact F' | right; exact S'].
  - rewrite (Fresh_resume s i F). left. exact F.
Qed.

Lemma Inv_sched (evs : list Event) (s : Sys) : Inv s -> Inv (sched evs s).
Proof.
  revert s. induction evs as [|e r IH]; intros s H; simpl; auto.
  apply IH. apply Inv_step. exact H.
Qed.


(** ** [init] alone: the checks, failure and success *)

Lemma run_await {A : Type} (p : Prog A) (w : World) :
  run (await_ p) w = run p w.
Proof.
  unfold await_. rewrite run_bind.
  destruct (run p w) as [[a|e] w']; reflexivity.
Qed.

(** When [init] returns, [this.client] is assigned. *)
Lemma run_init_returned (w w1 : World) (u : unit) :
  run init w = (Returned u, w1) -> client (this w1) <> None.
Proof.
  open_world w; simpl. destruct cl as [c|].
  - intros H; inversion H; subst; simpl. congruence.
  - destruct cfg as [pc pd pcol ps pt pp pi]; simpl.
    destruct pc as [c|]; [|discriminate].
    destruct (falsy pd); [discriminate|].
    destruct (falsy pcol); [discriminate|].
    repeat (simpl; unfold issue; simpl;
            match goal with
            | |- context [fault ?n] => destruct (fault n)
            | |- context [native_strategy ?c] => destruct (native_strategy c)
            end; try discriminate);
      simpl; intros H; inversion H; subst; simpl; congruence.
Qed.

(** A failure of [init] is the failure of the method that called it. *)
Lemma run_invoke_init_thrown (op : Op) (w w1 : World) (e : Error) :
  run init w = (Thrown e, w1) -> run (invoke op) w = (Thrown e, w1).
Proof.
  intros E.
  assert (X : forall B (k : unit -> Prog B),
             run (bind (await_ init) k) w = (Thrown e, w1)).
  { intros B k. rewrite run_bind, run_await, E. reflexivity. }
  destruct op; unfold invoke; rewrite run_bind;
    unfold get, set, destroy, all, length, clear, touch, removeExpiredSessions;
    rewrite ?run_readThis, X; reflexivity.
Qed.

(** C8.  [touch(sid, payload)] does what [set(sid, payload)] does: from any
    state of the engine and of the collection, whatever the clock reads and
    whichever calls the storage layer rejects, both end with the same
    result and leave the same engine, the same collection and the same calls
    received.  On a ready engine, with no call rejected and unique ids,
    [touch] returns, and afterwards exactly one record has
    [sessionId = prefix + sid]: it holds the payload and the expiry
    refreshed to the time [touch] reads plus [ttlMs]; the records of the
    other ids are as they were. *)
Theorem touch_is_set (w : World) (sid : string) (session : Payload) :
  run (touch sid session) w = run (set sid session) w /\
  (ready (this w) = true -> no_faults -> unique_ids (docs (db w)) ->
   let key := getSid (this w) sid in
   let w1 := snd (run (touch sid session) w) in
   fst (run (touch sid session) w) = Returned tt /\
   filter (has_key key) (docs (db w1)) =
     [mkSession key session
                (clock (ticks w) + p_ttlMs (config (this w)))%Z
                (clock (S (ticks w)))] /\
   filter (fun e => negb (has_key key e)) (docs (db w1)) =
     filter (fun e => negb (has_key key e)) (docs (db w)) /\
   unique_ids (docs (db w1))).
Proof.
  assert (Same : run (touch sid session) w = run (set sid session) w).
  { unfold touch. rewrite run_readThis, run_bind, run_await.
    destruct (run init w) as [[u|e] w1] eqn:E.
    - rewrite run_await. unfold set at 2. rewrite run_bind, run_await, E.
      unfold set. rewrite run_bind, run_await.
      rewrite (run_init_assigned w1 (run_init_returned w w1 u E)).
      destruct u. reflexivity.
    - unfold set. rewrite run_bind, run_await, E. reflexivity. }
  split; [exact Same|].
  intros R F U key w1. unfold w1. rewrite Same.
  destruct (set_result w sid session R F) as (E & A).
  destruct A as (_ & _ & _ & _ & Hd). fold key in Hd.
  split; [exact E|]. rewrite Hd.
  split; [apply upsert_one_record; auto|].
  split; [|apply upsert_unique; auto].
  apply upsert_others; auto. intros e K. rewrite K. reflexivity.
Qed.

(** C6.  On an engine whose [client] is not assigned yet, [init] checks the
    configuration in the order client, database name, collection name.  The
    first field that is missing decides the error, whatever the later fields
    are; the error is the result of the method that called [init], and
    neither the engine nor the collection has changed: no index was asked
    for.  The message is the package name followed by the text of the
    claim, as in [config_error]. *)
Theorem init_checks_config_in_order (w : World) (op : Op) :
  client (this w) = None ->
  let cfg := config (this w) in
  (p_client cfg = None ->
   run init w =
     (Thrown (config_error "client not defined"), w) /\
   run (invoke op) w =
     (Thrown (config_error "client not defined"), w)) /\
  (p_client cfg <> None -> falsy (p_dbName cfg) = true ->
   run init w =
     (Thrown (config_error "dbName not defined"), w) /\
   run (invoke op) w =
     (Thrown (config_error "dbName not defined"), w)) /\
  (p_client cfg <> None -> falsy (p_dbName cfg) = false ->
   falsy (p_collection cfg) = true ->
   run init w =
     (Thrown (config_error "collection not defined"), w) /\
   run (invoke op) w =
     (Thrown (config_error "collection not defined"), w)).
Proof.
  intros C cfg.
  assert (X : forall e, run init w = (Thrown e, w) ->
                        run init w = (Thrown e, w) /\
                        run (invoke op) w = (Thrown e, w)).
  { intros e E. split; [exact E | apply run_invoke_init_thrown; exact E]. }
  subst cfg. open_world w; simpl in *; subst cl.
  destruct cfg as [pc pd pcol ps pt pp pi]; simpl in *.
  split; [|split].
  - intros ->. apply X. reflexivity.
  - intros Hc Hd. apply X. simpl.
    destruct pc; [|congruence]. rewrite Hd. reflexivity.
  - intros Hc Hd Hl. apply X. simpl.
    destruct pc; [|congruence]. rewrite Hd, Hl. reflexivity.
Qed.


Lemma run_init_fails (w : World) (m : nat) :
  client (this w) = None ->
  valid_config (config (this w)) = true ->
  m < List.length (setup_sequence (config (this w))) ->
  fails_at w m ->
  exists w1,
    run init w = (Thrown StorageError, w1) /\
    assigned (this w1) = true /\
    hasInit (this w1) = hasInit (this w) /\
    trace w1 =
      trace w ++ map CreateIndex (firstn (S m) (setup_sequence (config (this w)))) /\
    indexes (db w1) =
      fold_left (fun l spec => createIndex spec l)
                (firstn m (setup_sequence (config (this w))))
                (indexes (db w)) /\
    docs (db w1) = docs (db w).
Proof.
  intros C V M (F0 & F1).
  open_world w; simpl in *; subst cl.
  destruct cfg as [pc pd pcol ps pt pp pi]; unfold valid_config in V; simpl in *.
  destruct pc as [c|]; [|discriminate].
  apply andb_prop in V. destruct V as (V1 & V2).
  apply negb_true_iff in V1, V2. rewrite V1, V2.
  unfold setup_sequence in *. simpl in *.
  assert (G0 : forall n, n = List.length tr + 0 -> m = 0 -> fault n = true)
    by (intros; subst; auto).
  assert (G1 : forall n, n = List.length tr + 1 -> m = 1 -> fault n = true)
    by (intros; subst; auto).
  assert (G2 : forall n, n = List.length tr + 2 -> m = 2 -> fault n = true)
    by (intros; subst; auto).
  assert (L0 : forall n, n = List.length tr + 0 -> 0 < m -> fault n = false)
    by (intros; subst; auto).
  assert (L1 : forall n, n = List.length tr + 1 -> 1 < m -> fault n = false)
    by (intros; subst; auto).
  assert (L2 : forall n, n = List.length tr + 2 -> 2 < m -> fault n = false)
    by (intros; subst; auto).
  assert (E0 : List.length tr = List.length tr + 0) by lia.
  assert (E1 : List.length (tr ++ [CreateIndex session_id_idx])
               = List.length tr + 1)
    by (rewrite length_app; reflexivity).
  assert (E2 : List.length ((tr ++ [CreateIndex session_id_idx])
                              ++ [CreateIndex session_id_expires_idx])
               = List.length tr + 2)
    by (rewrite !length_app; simpl; lia).
  unfold native_strategy in *; simpl in *.
  destruct m as [|[|[|m]]].
  - unfold issue; simpl. rewrite (G0 _ E0 eq_refl).
    eexists; split; [reflexivity|]. simpl.
    repeat split; auto; try (destruct ps as [[|]|]; reflexivity).
  - unfold issue; simpl. rewrite (L0 _ E0) by lia. simpl.
    unfold issue; simpl. rewrite (G1 _ E1 eq_refl).
    eexists; split; [reflexivity|]. simpl. rewrite <- app_assoc.
    repeat split; auto; try (destruct ps as [[|]|]; reflexivity).
  - unfold issue; simpl. rewrite (L0 _ E0) by lia. simpl.
    unfold issue; simpl. rewrite (L1 _ E1) by lia. simpl.
    destruct ps as [[|]|]; simpl in *; try lia;
      unfold issue; simpl; rewrite (G2 _ E2 eq_refl);
      (eexists; split; [reflexivity|]); simpl; rewrite <- !app_assoc;
      repeat split; auto.
  - destruct ps as [[|]|]; simpl in *; lia.
Qed.


Lemma invoke_owes_fixed (t0 : This) (op : Op) :
  client t0 <> None -> Owes (eq t0) data_call [] (invoke op).
Proof.
  intros H.
  destruct op; unfold invoke, get, set, destroy, all, length, clear, touch,
               removeExpiredSessions;
    owes_with ltac:(reflexivity).
Qed.

Lemma data_call_keeps_indexes (ixs : list IndexSpec) (c : Call) (s : Storage) :
  data_call c -> indexes s = ixs -> indexes (snd (exec c s)) = ixs.
Proof. destruct c; simpl; auto. discriminate. Qed.

Lemma creations_data (n : string) (tr new : list Call) :
  Forall data_call new -> creations n (tr ++ new) = creations n tr.
Proof.
  intros H. unfold creations. rewrite index_names_app.
  replace (index_names new) with (@nil string);
    [rewrite app_nil_r; reflexivity|].
  induction H as [|c r Hc _ IH]; [reflexivity|].
  unfold index_names in *. simpl. rewrite <- IH.
  destruct c; try reflexivity. discriminate.
Qed.

(** Once [client] is assigned, a method leaves the fields of [this] and the
    indexes of the collection as they are and asks for no index. *)
Lemma run_invoke_assigned (op : Op) (w : World) :
  client (this w) <> None ->
  this (snd (run (invoke op) w)) = this w /\
  indexes (db (snd (run (invoke op) w))) = indexes (db w) /\
  forall n, creations n (trace (snd (run (invoke op) w))) =
            creations n (trace w).
Proof.
  intros H.
  destruct (run_owes (eq (this w)) data_call
                     (fun s => indexes s = indexes (db w))
                     (data_call_keeps_indexes (indexes (db w)))
                     [] (invoke op) w
                     (invoke_owes_fixed (this w) op H) eq_refl eq_refl eq_refl)
    as (Hi & Hj & new & T & Fa).
  repeat split; auto. intros n. rewrite T. apply creations_data. exact Fa.
Qed.

(** C10.  On a new engine whose configuration passes the three checks,
    let the [m]-th [createIndex] of the setup be rejected.  The method that
    triggered [init] fails with that storage error; [client] and
    [collection] are assigned and [hasInit] is still [false]; the collection
    received the [createIndex] calls up to the rejected one and has the
    indexes before it.  From then on, in every state of the engine with
    [client] assigned, [init] returns at once, raises nothing, and any
    method leaves the fields of the engine ([hasInit] included) and the
    indexes of the collection unchanged and asks for no index. *)
Theorem failed_setup_is_not_retried (w : World) (m : nat) (op : Op) :
  client (this w) = None ->
  hasInit (this w) = false ->
  valid_config (config (this w)) = true ->
  m < List.length (setup_sequence (config (this w))) ->
  fails_at w m ->
  let w1 := snd (run (invoke op) w) in
  fst (run (invoke op) w) = Thrown StorageError /\
  assigned (this w1) = true /\
  ready (this w1) = true /\
  hasInit (this w1) = false /\
  trace w1 =
    trace w ++ map CreateIndex (firstn (S m) (setup_sequence (config (this w)))) /\
  indexes (db w1) =
    fold_left (fun l spec => createIndex spec l)
              (firstn m (setup_sequence (config (this w))))
              (indexes (db w)) /\
  forall (w2 : World) (op2 : Op),
    assigned (this w2) = true ->
    run init w2 = (Returned tt, w2) /\
    let w3 := snd (run (invoke op2) w2) in
    this w3 = this w2 /\
    indexes (db w3) = indexes (db w2) /\
    forall n, creations n (trace w3) = creations n (trace w2).
Proof.
  intros C Hh V M F w1.
  destruct (run_init_fails w m C V M F) as (w' & E & A & Hi & T & Ix & _).
  pose proof (run_invoke_init_thrown op w w' StorageError E) as E'.
  assert (W : w1 = w') by (unfold w1; rewrite E'; reflexivity).
  rewrite E', W. cbn [fst].
  split; [reflexivity|]. split; [exact A|].
  split; [apply assigned_ready; exact A|].
  split; [congruence|]. split; [exact T|]. split; [exact Ix|].
  intros w2 op2 A2.
  pose proof (assigned_client _ A2) as C2.
  split; [apply run_init_assigned; exact C2|].
  apply run_invoke_assigned. exact C2.
Qed.

(** ** Initialization under any interleaving *)

(** C1, as the code has it.  Whatever methods are called and however the
    event loop interleaves them, the collection receives at most one
    [createIndex] call for any index name; and when the configuration
    passes the checks, the setup is started by the first method called and
    by no other: [session_id_idx] is asked for exactly once.  The guard of
    [init] is the field [client], assigned before the first [createIndex] is
    sent: in every state with [client] assigned, [init] returns at once,
    without a call to the collection and without waiting for the setup in
    flight; and [hasInit] is [true] only in such states, so an [init] after
    the setup has completed does nothing. *)
Theorem setup_runs_at_most_once
        (cfg : MongoStoreParams) (s0 : Storage) (evs : list Event) :
  let s := sched evs (boot cfg s0) in
  (forall n, creations n (trace (world s)) <= 1) /\
  (valid_config cfg = true ->
   forall op, creations "session_id_idx"
                (trace (world (sched (Invoke op :: evs) (boot cfg s0)))) = 1) /\
  (forall w, client (this w) <> None ->
             advance init w = (Finished (Returned tt), w) /\
             run init w = (Returned tt, w)) /\
  (hasInit (this (world s)) = true ->
   advance init (world s) = (Finished (Returned tt), world s) /\
   run init (world s) = (Returned tt, world s)).
Proof.
  intros s.
  assert (Once : forall s', Started s' ->
                            forall n, creations n (trace (world s')) <= 1).
  { intros s' (_ & _ & budgets & _ & Hn) n. unfold creations.
    apply NoDup_app_remove_r in Hn.
    apply (NoDup_count_occ string_dec); exact Hn. }
  pose proof (Inv_sched evs (boot cfg s0) (or_introl (Fresh_boot cfg s0))) as H.
  fold s in H.
  split; [|split; [|split]].
  - intros n. destruct H as [(_ & _ & Hn & _)|S].
    + unfold creations. rewrite Hn. simpl. lia.
    + apply Once; exact S.
  - intros V op.
    destruct (Fresh_invoke (boot cfg s0) op (Fresh_boot cfg s0))
      as [(V' & _)|(_ & S)]; [simpl in V'; congruence|].
    apply (Started_sched evs) in S.
    change (sched evs (sched_step (boot cfg s0) (Invoke op)))
      with (sched (Invoke op :: evs) (boot cfg s0)) in S.
    pose proof (Once _ S "session_id_idx") as Le.
    destruct S as (_ & Hin & _).
    unfold creations in *.
    apply (count_occ_In string_dec) in Hin. lia.
  - intros w C. split; [apply advance_init_assigned | apply run_init_assigned]; exact C.
  - intros Hh. destruct H as [(_ & Hf & _)|(C & _)]; [congruence|].
    split; [apply advance_init_assigned | apply run_init_assigned]; exact C.
Qed.


(** ** Keys and uniqueness under any run *)

Lemma invoke_keyed (pfx : string) (op : Op) :
  Owes (fun t => prefix t = pfx) (keyed_by pfx op) [] (invoke op).
Proof.
  destruct op; unfold invoke, get, set, destroy, all, length, clear, touch,
               removeExpiredSessions, set;
    owes_with ltac:(unfold keyed_by, getSid; simpl; intros ? ?;
                    intuition (subst; congruence)).
Qed.

Lemma invoke_writes_own_key (op : Op) :
  Owes (fun _ => True) writes_own_key [] (invoke op).
Proof.
  destruct op; unfold invoke, get, set, destroy, all, length, clear, touch,
               removeExpiredSessions, set;
    owes_with ltac:(simpl; auto).
Qed.

Lemma writes_own_key_unique (c : Call) (s : Storage) :
  writes_own_key c -> unique_ids (docs s) -> unique_ids (docs (snd (exec c s))).
Proof.
  destruct c; simpl; auto.
  - intros (-> & ->) U. apply upsert_unique; auto.
  - intros _. apply deleteOne_unique.
  - intros _. apply filter_unique.
Qed.

(** Every method keeps the ids of the collection unique, whatever the state
    of the engine and whichever calls are rejected. *)
Lemma unique_ids_kept (op : Op) (w : World) :
  unique_ids (docs (db w)) ->
  unique_ids (docs (db (snd (run (invoke op) w)))).
Proof.
  intros U.
  apply (run_owes (fun _ => True) writes_own_key
                  (fun s => unique_ids (docs s)) writes_own_key_unique
                  [] (invoke op) w (invoke_writes_own_key op) eq_refl I U).
Qed.

(** Every id a method sends to the collection is [prefix + sid]. *)
Lemma calls_use_formatted_key (op : Op) (w : World) :
  exists new,
    trace (snd (run (invoke op) w)) = trace w ++ new /\
    Forall (keyed_by (prefix (this w)) op) new.
Proof.
  apply (run_owes (fun t => prefix t = prefix (this w))
                  (keyed_by (prefix (this w)) op)
                  (fun _ => True) (fun _ _ _ _ => I)
                  [] (invoke op) w (invoke_keyed _ op) eq_refl eq_refl I).
Qed.

(** C5.  [getSid(sid)] is [prefix + sid], where the prefix of a new engine
    is the configured one or the empty string, and every session id that a
    method sends to the collection, in a query or in a document, is the
    formatted one.  With a non-empty prefix such as ["p:"], after
    [set(sid, payload)] on a collection that stores nothing under the
    unprefixed [sid], a lookup in the collection for [sid] finds nothing, a
    lookup for [prefix + sid] finds the record with the payload, and
    [get(sid)], reading a time before the expiry, returns the payload. *)
Theorem key_namespacing (w : World) (sid : string) (session : Payload) :
  ready (this w) = true -> no_faults ->
  prefix (this w) <> "" ->
  ~ In sid (map sessionId (docs (db w))) ->
  let w1 := snd (run (set sid session) w) in
  (forall cfg s, getSid (new_MongoStoreBase cfg) s =
                 (or_empty (p_prefix cfg) ++ s)%string) /\
  getSid (this w) sid = (prefix (this w) ++ sid)%string /\
  (forall op, exists new,
      trace (snd (run (invoke op) w)) = trace w ++ new /\
      Forall (keyed_by (prefix (this w)) op) new) /\
  fst (run (set sid session) w) = Returned tt /\
  findOne [sessionId_eq sid] (docs (db w1)) = None /\
  (exists d, findOne [sessionId_eq (prefix (this w) ++ sid)%string]
                     (docs (db w1)) = Some d /\
             sessionId d = (prefix (this w) ++ sid)%string /\
             data d = session) /\
  ((clock (ticks w1) < clock (ticks w) + p_ttlMs (config (this w)))%Z ->
   fst (run (get sid) w1) = Returned (Some session)).
Proof.
  intros R F P N w1.
  destruct (set_result w sid session R F) as (E & A). fold w1 in A.
  pose proof (after_ready _ _ _ _ A) as R1.
  destruct A as (_ & Hp & Hc & Ht & Hd).
  set (k := getSid (this w) sid) in *.
  set (d := mkSession k session _ _) in *.
  assert (Kd : sessionId d = k) by reflexivity.
  assert (NE : k <> sid).
  { unfold k, getSid. apply append_nonempty. exact P. }
  split; [reflexivity|]. split; [reflexivity|].
  split; [intros op; apply calls_use_formatted_key|]. split; [exact E|].
  split; [|split].
  - rewrite Hd. apply find_none. intros e He. rewrite matches_key.
    destruct (has_key sid e) eqn:K; auto.
    assert (In e (filter (has_key sid) (updateOne [sessionId_eq k] d true (docs (db w))))).
    { apply filter_In; auto. }
    rewrite upsert_others in H; auto.
    + apply filter_In in H. destruct H as (H1 & H2).
      exfalso. apply N. apply has_key_true in H2. rewrite <- H2.
      apply in_map; auto.
    + intros x Kx. apply has_key_true in Kx. apply has_key_false. congruence.
  - exists d. rewrite Hd. fold (getSid (this w) sid). fold k.
    split; [apply upsert_findOne; auto | split; reflexivity].
  - intros L. rewrite (get_result w1 sid R1 F), Hd.
    replace (getSid (this w1) sid) with k
      by (unfold k, getSid; rewrite Hp; reflexivity).
    pose proof (upsert_findOne k d Kd (docs (db w))) as Fd.
    unfold findOne in *.
    assert (Ld : live (clock (ticks w1)) d = true).
    { apply live_gt. subst d. simpl. lia. }
    revert Fd. generalize (updateOne [sessionId_eq k] d true (docs (db w))).
    induction l as [|x r IH]; simpl; [discriminate|].
    rewrite matches_key, matches_gt_key.
    destruct (has_key k x) eqn:K; simpl.
    + intros H; inversion H; subst x. rewrite Ld. reflexivity.
    + rewrite andb_false_r. exact IH.
Qed.


(** * Further properties of the engine

    What follows covers the code the claims leave aside: [destroy], how the
    methods compose, what a successful [init] leaves, and which errors a
    method can end with. *)

(** The fields of [this] are consistent: [collection] is assigned whenever
    [client] is. *)
Definition well_formed (t : This) : bool :=
  match client t, collection t with
  | Some _, None => false
  | _, _ => true
  end.

(** The errors [init] throws by itself. *)
Definition is_config_error (e : Error) : bool :=
  match e with
  | Error_ m =>
    String.eqb m "express-session-mongo: client not defined"
    || String.eqb m "express-session-mongo: dbName not defined"
    || String.eqb m "express-session-mongo: collection not defined"
  | _ => false
  end.

(** A call that leaves the documents alone. *)
Definition read_call (c : Call) : Prop :=
  match c with
  | CreateIndex _ | FindOne _ | Find _ | CountDocuments _ => True
  | _ => False
  end.

(** Every session id the call mentions starts with the prefix. *)
Definition prefixed (pfx : string) (c : Call) : Prop :=
  forall k, In k (call_keys c) -> exists sid, k = (pfx ++ sid)%string.

(** The methods that only read. *)
Definition reads_only (op : Op) : bool :=
  match op with
  | OpGet _ | OpAll | OpLength => true
  | _ => false
  end.

(** ** Lists of documents, continued *)

Lemma filter_all (P : SessionData -> bool) (l : list SessionData) :
  (forall d, In d l -> P d = true) -> filter P l = l.
Proof.
  induction l as [|x r IH]; simpl; intros H; auto.
  rewrite (H x) by auto. f_equal. apply IH. intros d Hd. apply H. auto.
Qed.

Lemma find_filter (P Q : SessionData -> bool) (l : list SessionData) :
  (forall d, P d = true -> Q d = true) -> find P (filter Q l) = find P l.
Proof.
  intros H. induction l as [|x r IH]; simpl; auto.
  destruct (Q x) eqn:Qx; simpl.
  - destruct (P x); auto.
  - destruct (P x) eqn:Px; auto. rewrite (H x Px) in Qx. discriminate.
Qed.

Lemma deleteOne_absent (k : string) (l : list SessionData) :
  ~ In k (map sessionId l) -> deleteOne [sessionId_eq k] l = l.
Proof.
  intros N. pose proof (has_key_In k l N) as H. clear N.
  induction l as [|x r IH]; simpl; auto.
  rewrite matches_key, (H x) by (left; auto).
  f_equal. apply IH. intros d Hd. apply H. right; auto.
Qed.

Lemma deleteOne_unique_filter (k : string) (l : list SessionData) :
  unique_ids l ->
  deleteOne [sessionId_eq k] l = filter (fun d => negb (has_key k d)) l.
Proof.
  unfold unique_ids. induction l as [|x r IH]; simpl; intros U; auto.
  inversion U as [|? ? Hx Ur]; subst. rewrite matches_key.
  destruct (has_key k x) eqn:K; simpl.
  - apply has_key_true in K. subst k. symmetry. apply filter_all.
    intros d Hd. rewrite (has_key_In _ _ Hx d Hd). reflexivity.
  - f_equal. apply IH. exact Ur.
Qed.

Lemma updateOne_absent (k : string) (d : SessionData) (l : list SessionData) :
  sessionId d = k -> ~ In k (map sessionId l) ->
  updateOne [sessionId_eq k] d true l = l ++ [d].
Proof.
  intros Kd N. unfold updateOne.
  apply (update_first_none k d l) in N. rewrite N. reflexivity.
Qed.

Lemma deleteOne_last (k : string) (d : SessionData) (l : list SessionData) :
  sessionId d = k -> ~ In k (map sessionId l) ->
  deleteOne [sessionId_eq k] (l ++ [d]) = l.
Proof.
  intros Kd N. pose proof (has_key_In k l N) as H. clear N.
  induction l as [|x r IH]; simpl.
  - rewrite matches_key. apply has_key_true in Kd. rewrite Kd. reflexivity.
  - rewrite matches_key, (H x) by (left; auto).
    f_equal. apply IH. intros e He. apply H. right; auto.
Qed.


(** ** [destroy] *)

Lemma run_touch_set (w : World) (sid : string) (session : Payload) :
  run (touch sid session) w = run (set sid session) w.
Proof.
  unfold touch. rewrite run_readThis, run_bind, run_await.
  destruct (run init w) as [[u|e] w1] eqn:E.
  - rewrite run_await. unfold set at 2. rewrite run_bind, run_await, E.
    unfold set. rewrite run_bind, run_await.
    rewrite (run_init_assigned w1 (run_init_returned w w1 u E)).
    destruct u. reflexivity.
  - unfold set. rewrite run_bind, run_await, E. reflexivity.
Qed.

Lemma after_key (w : World) (n : nat) (l : list SessionData) (w' : World)
      (sid : string) :
  after w n l w' -> getSid (this w') sid = getSid (this w) sid.
Proof. intros (_ & Hp & _). unfold getSid. rewrite Hp. reflexivity. Qed.

(** X1.  On a collection with unique ids, [destroy(sid)] removes the record
    of [prefix + sid] and no other; right after it [get(sid)] returns
    [null], whatever its expiry was, and [get] for any other id answers as
    before. *)
Theorem destroy_removes_record (w : World) (sid : string) :
  ready (this w) = true -> no_faults -> unique_ids (docs (db w)) ->
  let key := getSid (this w) sid in
  let w1 := snd (run (destroy sid) w) in
  fst (run (destroy sid) w) = Returned tt /\
  docs (db w1) = filter (fun d => negb (has_key key d)) (docs (db w)) /\
  fst (run (get sid) w1) = Returned None /\
  forall sid', getSid (this w) sid' <> key ->
               fst (run (get sid') w1) = fst (run (get sid') w).
Proof.
  intros R F U key w1.
  destruct (run_destroy w sid R F) as (w' & E & A).
  assert (W : w1 = w') by (unfold w1; rewrite E; reflexivity).
  rewrite E, W. cbn [fst]. clear W w1.
  pose proof (after_ready _ _ _ _ A) as R1.
  pose proof (after_key _ _ _ _ sid A) as K1.
  assert (Hd : docs (db w') =
               filter (fun d => negb (has_key key d)) (docs (db w))).
  { destruct A as (_ & _ & _ & _ & Hd). rewrite Hd.
    apply deleteOne_unique_filter; auto. }
  split; [reflexivity|]. split; [exact Hd|]. split.
  - rewrite (get_result w' sid R1 F), K1, Hd. fold key. unfold findOne.
    rewrite find_none; [reflexivity|].
    intros d Hin. apply filter_In in Hin. destruct Hin as (_ & Hk).
    rewrite matches_gt_key. apply negb_true_iff in Hk. rewrite Hk.
    apply andb_false_r.
  - intros sid' Ne.
    rewrite (get_result w' sid' R1 F), (get_result w sid' R F).
    rewrite (after_key _ _ _ _ sid' A), Hd.
    destruct A as (_ & _ & _ & Ht & _). rewrite Ht, Nat.add_0_r.
    unfold findOne. rewrite find_filter; [reflexivity|].
    intros d M. rewrite matches_gt_key in M. apply andb_prop in M.
    destruct M as (_ & M). apply has_key_true in M.
    apply negb_true_iff. apply has_key_false. congruence.
Qed.

(** X2.  [destroy(sid)] for an id the collection does not hold returns
    normally and leaves every document as it was. *)
Theorem destroy_absent_changes_nothing (w : World) (sid : string) :
  ready (this w) = true -> no_faults ->
  ~ In (getSid (this w) sid) (map sessionId (docs (db w))) ->
  fst (run (destroy sid) w) = Returned tt /\
  docs (db (snd (run (destroy sid) w))) = docs (db w).
Proof.
  intros R F N. destruct (run_destroy w sid R F) as (w' & E & A).
  rewrite E. cbn [fst snd]. split; [reflexivity|].
  destruct A as (_ & _ & _ & _ & Hd). rewrite Hd.
  apply deleteOne_absent. exact N.
Qed.

(** X3.  [set(sid, payload)] for a new id followed by [destroy(sid)] leaves
    the documents of the collection exactly as they were before the
    [set]. *)
Theorem set_then_destroy_restores (w : World) (sid : string) (session : Payload) :
  ready (this w) = true -> no_faults ->
  ~ In (getSid (this w) sid) (map sessionId (docs (db w))) ->
  let w1 := snd (run (set sid session) w) in
  let w2 := snd (run (destroy sid) w1) in
  fst (run (destroy sid) w1) = Returned tt /\
  docs (db w1) <> docs (db w) /\
  docs (db w2) = docs (db w).
Proof.
  intros R F N w1 w2.
  destruct (set_result w sid session R F) as (_ & A). fold w1 in A.
  pose proof (after_ready _ _ _ _ A) as R1.
  pose proof (after_key _ _ _ _ sid A) as K1.
  destruct (run_destroy w1 sid R1 F) as (w' & E & A2).
  assert (W : w2 = w') by (unfold w2; rewrite E; reflexivity).
  rewrite E, W. cbn [fst]. clear W w2.
  destruct A as (_ & _ & _ & _ & Hd). destruct A2 as (_ & _ & _ & _ & Hd2).
  rewrite updateOne_absent in Hd by auto.
  split; [reflexivity|]. split.
  - rewrite Hd. intros H. apply (f_equal (@List.length _)) in H.
    rewrite length_app in H. simpl in H. lia.
  - rewrite Hd2, K1, Hd. apply deleteOne_last; auto.
Qed.


(** ** How [set], [get], [length] and the sweep compose *)

Lemma find_head_filter (P : SessionData -> bool) (l : list SessionData) :
  find P l = hd_error (filter P l).
Proof.
  induction l as [|x r IH]; simpl; auto. destruct (P x); simpl; auto.
Qed.

Lemma filter_filter_imp (P Q : SessionData -> bool) (l : list SessionData) :
  (forall d, P d = true -> Q d = true) -> filter P (filter Q l) = filter P l.
Proof.
  intros H. induction l as [|x r IH]; simpl; auto.
  destruct (Q x) eqn:Qx; simpl.
  - rewrite IH. reflexivity.
  - destruct (P x) eqn:Px; auto. rewrite (H x Px) in Qx. discriminate.
Qed.

Lemma sweep_keeps_live (t t' : Z) (l : list SessionData) :
  (t <= t')%Z ->
  filter (live t') (deleteMany [expiresMs_lt t] l) = filter (live t') l.
Proof.
  intros Le. unfold deleteMany. apply filter_filter_imp.
  intros d L. rewrite matches_lt. apply live_gt in L.
  apply negb_true_iff. apply Z.ltb_ge. lia.
Qed.

(** X4.  [set(sid, payload)] does not touch the records of other ids: a
    [get] for another id after it answers from the documents as they were
    before the [set]. *)
Theorem set_leaves_other_ids (w : World) (sid sid' : string) (session : Payload) :
  ready (this w) = true -> no_faults ->
  getSid (this w) sid' <> getSid (this w) sid ->
  let w1 := snd (run (set sid session) w) in
  fst (run (get sid') w1) =
  Returned (option_map data
    (findOne [expiresMs_gt (clock (ticks w1));
              sessionId_eq (getSid (this w) sid')]
             (docs (db w)))).
Proof.
  intros R F Ne w1.
  destruct (set_result w sid session R F) as (_ & A). fold w1 in A.
  pose proof (after_ready _ _ _ _ A) as R1.
  rewrite (get_result w1 sid' R1 F), (after_key _ _ _ _ sid' A).
  destruct A as (_ & _ & _ & _ & Hd). rewrite Hd.
  unfold findOne. rewrite !find_head_filter.
  rewrite upsert_others; [reflexivity | reflexivity |].
  intros e K. rewrite matches_gt_key. apply has_key_true in K.
  assert (K' : has_key (getSid (this w) sid') e = false)
    by (apply has_key_false; congruence).
  rewrite K'. apply andb_false_r.
Qed.


(** X6.  A sweep never removes a record that a later read would return:
    when the clock does not go back, [all()], [length()] and [get(sid)]
    after [removeExpiredSessions()] answer exactly as they would from the
    unswept documents. *)
Theorem sweep_is_invisible_to_reads (w : World) (sid : string) :
  ready (this w) = true -> no_faults ->
  (clock (ticks w) <= clock (S (ticks w)))%Z ->
  let w1 := snd (run removeExpiredSessions w) in
  let t' := clock (S (ticks w)) in
  fst (run all w1) =
    Returned (map data (filter (live t') (docs (db w)))) /\
  fst (run length w1) =
    Returned (List.length (filter (live t') (docs (db w)))) /\
  fst (run (get sid) w1) =
    Returned (option_map data
      (findOne [expiresMs_gt t'; sessionId_eq (getSid (this w) sid)]
               (docs (db w)))).
Proof.
  intros R F Le w1 t'.
  destruct (run_removeExpiredSessions w R F) as (w' & E & A).
  assert (W : w1 = w') by (unfold w1; rewrite E; reflexivity).
  rewrite W. clear W w1.
  pose proof (after_ready _ _ _ _ A) as R1.
  pose proof (after_key _ _ _ _ sid A) as K1.
  destruct A as (_ & _ & _ & Ht & Hd).
  assert (T : clock (ticks w') = t')
    by (unfold t'; rewrite Ht, Nat.add_1_r; reflexivity).
  destruct (run_all w' R1 F) as (w2 & E2 & _).
  destruct (run_length w' R1 F) as (w3 & E3 & _).
  rewrite E2, E3, (get_result w' sid R1 F), K1, T, Hd. cbn [fst].
  unfold find_, countDocuments.
  rewrite !(filter_ext _ (live t') (matches_gt t')).
  rewrite (sweep_keeps_live _ _ _ Le).
  repeat split; auto.
  unfold findOne. rewrite !find_head_filter. do 2 f_equal.
  rewrite <- (filter_filter_imp
                (matches [expiresMs_gt t'; sessionId_eq (getSid (this w) sid)])
                (live t') (deleteMany _ _)),
          <- (filter_filter_imp
                (matches [expiresMs_gt t'; sessionId_eq (getSid (this w) sid)])
                (live t') (docs (db w))).
  - rewrite (sweep_keeps_live _ _ _ Le). reflexivity.
  - intros d M. rewrite matches_gt_key in M. apply andb_prop in M. tauto.
  - intros d M. rewrite matches_gt_key in M. apply andb_prop in M. tauto.
Qed.


(** ** A successful [init], and the ways a method can fail *)

Lemma has_index_createIndex_same (spec : IndexSpec) (l : list IndexSpec) :
  has_index (idx_name spec) (createIndex spec l) = true.
Proof.
  unfold createIndex. destruct (has_index (idx_name spec) l) eqn:H; auto.
  unfold has_index. rewrite existsb_app. simpl.
  rewrite String.eqb_refl. apply orb_true_iff. right. reflexivity.
Qed.

Lemma has_index_createIndex_kept (n : string) (spec : IndexSpec)
      (l : list IndexSpec) :
  has_index n l = true -> has_index n (createIndex spec l) = true.
Proof.
  intros H. unfold createIndex. destruct (has_index (idx_name spec) l); auto.
  unfold has_index in *. rewrite existsb_app, H. reflexivity.
Qed.

(** X7.  The first [init] of an engine whose configuration passes the
    checks, on a storage layer that rejects nothing: it returns, [hasInit]
    is [true], [client] and [collection] are the configured ones, the
    documents are untouched, and the collection received [createIndex] for
    [session_id_idx] and [session_id_expires_idx], followed by
    [updated_at_ttl_idx] with [expireAfterSeconds] the floor of
    [ttlMs / 1000] ([-2] for [ttlMs = -1500]) unless the strategy is
    [interval]; all of them are indexes of the collection afterwards. *)
Theorem init_sets_up_collection (w : World) (c : MongoClient) :
  client (this w) = None ->
  p_client (config (this w)) = Some c ->
  valid_config (config (this w)) = true ->
  no_faults ->
  let cfg := config (this w) in
  let w1 := snd (run init w) in
  fst (run init w) = Returned tt /\
  this w1 =
    mkThis true cfg (Some c)
           (Some (mkCollection c (or_empty (p_dbName cfg))
                               (or_empty (p_collection cfg))))
           (prefix (this w)) /\
  docs (db w1) = docs (db w) /\
  ticks w1 = ticks w /\
  (p_cleanupStrategy cfg = Some interval ->
   trace w1 = trace w ++ [CreateIndex session_id_idx;
                          CreateIndex session_id_expires_idx]) /\
  (p_cleanupStrategy cfg <> Some interval ->
   trace w1 = trace w ++
     [CreateIndex session_id_idx;
      CreateIndex session_id_expires_idx;
      CreateIndex (mkIndex ["updatedAt"] "updated_at_ttl_idx" false
                           (Some (p_ttlMs cfg / 1000)%Z))]) /\
  has_index "session_id_idx" (indexes (db w1)) = true /\
  has_index "session_id_expires_idx" (indexes (db w1)) = true /\
  (p_cleanupStrategy cfg <> Some interval ->
   has_index "updated_at_ttl_idx" (indexes (db w1)) = true).
Proof.
  intros C Pc V F cfg w1. subst cfg w1.
  open_world w; simpl in *; subst cl.
  destruct cfg as [pc pd pcol ps pt pp pi]; unfold valid_config in V;
    simpl in *. subst pc.
  apply andb_prop in V. destruct V as (V1 & V2).
  apply negb_true_iff in V1, V2. rewrite V1, V2.
  pose proof (has_index_createIndex_same session_id_idx ixs) as H1.
  pose proof (has_index_createIndex_same session_id_expires_idx
                (createIndex session_id_idx ixs)) as H2.
  pose proof (has_index_createIndex_kept "session_id_idx"
                session_id_expires_idx _ H1) as H1'.
  unfold native_strategy; simpl.
  destruct ps as [[|]|]; storage_ok F; rewrite <- ?app_assoc; simpl;
    repeat split; auto; try congruence; try (intros _); try reflexivity;
    try (apply has_index_createIndex_kept; assumption);
    try (apply (has_index_createIndex_same (updated_at_ttl_idx pt))).
Qed.

Ltac crunch_run :=
  repeat (simpl; unfold issue; simpl;
          match goal with
          | |- context [fault ?n] => destruct (fault n) eqn:?
          | |- context [falsy ?x] => destruct (falsy x) eqn:?
          | |- context [native_strategy ?c] => destruct (native_strategy c) eqn:?
          | |- context [findOne ?f ?l] => destruct (findOne f l) eqn:?
          end);
  simpl.

(** X8.  On an engine whose fields are consistent (as the constructor
    leaves them, and as every method leaves them), a method ends in one of
    three ways only: it returns, it fails with a rejection of the storage
    layer, or it fails with one of the three configuration errors; the
    last happens only while [client] is not assigned and the configuration
    does not pass the checks, and then nothing has changed.  The fields are
    consistent afterwards. *)
Theorem methods_fail_in_two_ways (w : World) (op : Op) :
  well_formed (this w) = true ->
  well_formed (this (snd (run (invoke op) w))) = true /\
  forall e, fst (run (invoke op) w) = Thrown e ->
            e = StorageError \/
            (is_config_error e = true /\
             client (this w) = None /\
             valid_config (config (this w)) = false /\
             snd (run (invoke op) w) = w).
Proof.
  intros W. open_world w. unfold well_formed, valid_config in *; simpl in *.
  destruct cfg as [pc pd pcol ps pt pp pi]; simpl.
  destruct cl as [c|]; [destruct col as [c0|]; [|discriminate]|];
    [|destruct pc as [c|]];
    destruct op; crunch_run;
    (split; [reflexivity|]); intros e H; inversion H; subst;
    auto; right; repeat split; auto.
Qed.

(** X9.  A method that fails has not modified any document, whatever the
    state of the engine and whichever call was rejected. *)
Theorem failed_method_changes_no_document (w : World) (op : Op) (e : Error) :
  fst (run (invoke op) w) = Thrown e ->
  docs (db (snd (run (invoke op) w))) = docs (db w).
Proof.
  open_world w.
  destruct cfg as [pc pd pcol ps pt pp pi]; simpl.
  destruct cl as [c|]; [|destruct pc as [c|]]; destruct col as [c0|];
    destruct op; crunch_run; intros H; try discriminate H; reflexivity.
Qed.


(** ** What no run and no interleaving can do *)

Lemma read_call_keeps_docs (l : list SessionData) (c : Call) (s : Storage) :
  read_call c -> docs s = l -> docs (snd (exec c s)) = l.
Proof. destruct c; simpl; auto; contradiction. Qed.

Lemma get_reads_only (sid : string) :
  Owes (fun _ => True) read_call [] (get sid).
Proof. unfold get. owes_with ltac:(exact Logic.I). Qed.

Lemma all_reads_only : Owes (fun _ => True) read_call [] all.
Proof. unfold all. owes_with ltac:(exact Logic.I). Qed.

Lemma length_reads_only : Owes (fun _ => True) read_call [] length.
Proof. unfold length. owes_with ltac:(exact Logic.I). Qed.

(** X10.  [get], [all] and [length] never change a document and send
    nothing to the collection but index creations, [findOne], [find] and
    [countDocuments], from any state of the engine and whichever calls are
    rejected. *)
Theorem reads_change_no_document (w : World) (sid : string) :
  (docs (db (snd (run (get sid) w))) = docs (db w) /\
   exists new, trace (snd (run (get sid) w)) = trace w ++ new /\
               Forall read_call new) /\
  (docs (db (snd (run all w))) = docs (db w) /\
   exists new, trace (snd (run all w)) = trace w ++ new /\
               Forall read_call new) /\
  (docs (db (snd (run length w))) = docs (db w) /\
   exists new, trace (snd (run length w)) = trace w ++ new /\
               Forall read_call new).
Proof.
  pose proof (fun A (p : Prog A) (O : Owes (fun _ => True) read_call [] p) =>
                run_owes (fun _ => True) read_call
                         (fun s => docs s = docs (db w))
                         (read_call_keeps_docs (docs (db w)))
                         [] p w O eq_refl Logic.I eq_refl) as H.
  split; [|split].
  - destruct (H _ _ (get_reads_only sid)) as (_ & D & T). auto.
  - destruct (H _ _ all_reads_only) as (_ & D & T). auto.
  - destruct (H _ _ length_reads_only) as (_ & D & T). auto.
Qed.

(** One stretch, and then any schedule, of programs that owe nothing: what
    is known of [this], what the allowed calls keep of the collection, and
    that only allowed calls were received, all stay. *)
Section Schedules.

Variable I : This -> Prop.
Variable Q : Call -> Prop.
Variable J : Storage -> Prop.
Hypothesis J_kept : forall c s, Q c -> J s -> J (snd (exec c s)).
Hypothesis methods_owe : forall op, Owes I Q [] (invoke op).

Lemma advance_keeps {A : Type} (l : list string) (p : Prog A) (w : World) :
  Owes I Q l p -> l = [] ->
  I (this w) -> J (db w) -> Forall Q (trace w) ->
  I (this (snd (advance p w))) /\
  J (db (snd (advance p w))) /\
  Forall Q (trace (snd (advance p w))) /\
  stop_owes I Q [] (fst (advance p w)).
Proof.
  intros H. revert w. induction H; intros w E Hw Jw Tw; simpl;
    try discriminate; subst.
  - auto.
  - auto.
  - apply H0; auto.
  - exact (IHOwes (write f w) eq_refl (H _ Hw) Jw Tw).
  - exact (H0 _ (tick w) eq_refl Hw Jw Tw).
  - unfold issue. destruct (fault _); simpl; repeat split; auto;
      try (apply Forall_app; split; auto); apply Owes_throw.
  - repeat split; auto.
Qed.

Definition steady (s : Sys) : Prop :=
  I (this (world s)) /\ J (db (world s)) /\ Forall Q (trace (world s)) /\
  Forall (stop_owes I Q []) (pool s).

Lemma steady_step (s : Sys) (e : Event) : steady s -> steady (sched_step s e).
Proof.
  intros (Hi & Hj & Ht & Hp). destruct e as [op|i]; simpl.
  - destruct (advance_keeps [] (invoke op) (world s) (methods_owe op)
                            eq_refl Hi Hj Ht) as (Hi' & Hj' & Ht' & S).
    repeat split; auto. apply Forall_app; split; auto.
  - destruct (nth_error (pool s) i) as [t|] eqn:E; [|repeat split; auto].
    destruct (replace_nth_split _ _ _ E) as (xs & ys & Ep & R).
    rewrite R. rewrite Ep in Hp. apply Forall_app in Hp.
    destruct Hp as (Hx & Hy). inversion Hy as [|t' ys' Ho Hys]; subst.
    destruct t as [o|p]; simpl.
    + repeat split; auto. apply Forall_app; split; auto.
    + destruct (advance_keeps [] p (world s) Ho eq_refl Hi Hj Ht)
        as (Hi' & Hj' & Ht' & S).
      repeat split; auto. apply Forall_app; split; auto.
Qed.

Lemma steady_sched (evs : list Event) (s : Sys) :
  steady s -> steady (sched evs s).
Proof.
  revert s. induction evs as [|e r IH]; intros s H; simpl; auto.
  apply IH. apply steady_step. exact H.
Qed.

End Schedules.

Lemma invoke_prefixed (cfg : MongoStoreParams) (pfx : string) (op : Op) :
  Owes (fun t => config t = cfg /\ prefix t = pfx) (prefixed pfx) []
       (invoke op).
Proof.
  destruct op; unfold invoke, get, set, destroy, all, length, clear, touch,
               removeExpiredSessions, set;
    owes_with ltac:(let k := fresh "k" in
                    let Hin := fresh "Hin" in
                    unfold prefixed, getSid; simpl; intros k Hin;
                    repeat match goal with
                           | H : _ /\ _ |- _ => destruct H
                           end;
                    repeat match goal with
                           | H : prefix _ = pfx |- _ => rewrite H in Hin; clear H
                           end;
                    intuition (subst k; eexists; reflexivity)).
Qed.

(** X11.  However the methods of one engine are called and interleaved, and
    whichever calls the storage layer rejects, no two documents of the
    collection ever get the same [sessionId], provided none had before. *)
Theorem interleaving_keeps_ids_unique
        (cfg : MongoStoreParams) (s0 : Storage) (evs : list Event) :
  unique_ids (docs s0) ->
  unique_ids (docs (db (world (sched evs (boot cfg s0))))).
Proof.
  intros U.
  apply (steady_sched (fun _ => True) (fun c => writes_own_key c)
                      (fun s => unique_ids (docs s))
                      writes_own_key_unique invoke_writes_own_key
                      evs (boot cfg s0)).
  repeat split; simpl; auto.
Qed.

(** X12.  However the methods of one engine are called and interleaved, the
    engine never changes its configuration or its prefix, and every session
    id it sends to the collection, in a query or in a document, starts with
    that prefix. *)
Theorem interleaving_keeps_prefix
        (cfg : MongoStoreParams) (s0 : Storage) (evs : list Event) :
  let s := sched evs (boot cfg s0) in
  config (this (world s)) = cfg /\
  prefix (this (world s)) = or_empty (p_prefix cfg) /\
  Forall (prefixed (or_empty (p_prefix cfg))) (trace (world s)).
Proof.
  intros s.
  destruct (steady_sched (fun t => config t = cfg /\
                                   prefix t = or_empty (p_prefix cfg))
                         (prefixed (or_empty (p_prefix cfg)))
                         (fun _ => True) (fun _ _ _ _ => Logic.I)
                         (invoke_prefixed cfg (or_empty (p_prefix cfg)))
                         evs (boot cfg s0))
    as ((Hc & Hp) & _ & Ht & _).
  - repeat split; simpl; auto.
  - auto.
Qed.


(** ** Helpers for the callers of the engine *)

Lemma run_init_invalid (w : World) :
  client (this w) = None -> valid_config (config (this w)) = false ->
  exists e, is_config_error e = true /\ run init w = (Thrown e, w).
Proof.
  open_world w; simpl; intros C V; subst cl. unfold valid_config in V.
  destruct cfg as [pc pd pcol ps pt pp pi]; simpl in *.
  destruct pc as [c|]; [|eexists; split; [|reflexivity]; reflexivity].
  destruct (falsy pd); [eexists; split; [|reflexivity]; reflexivity|].
  destruct (falsy pcol); [eexists; split; [|reflexivity]; reflexivity|].
  discriminate V.
Qed.

Lemma run_sweep_init_thrown (w w1 : World) (e : Error) :
  run init w = (Thrown e, w1) ->
  run removeExpiredSessions w = (Thrown e, w1).
Proof.
  intros E. unfold removeExpiredSessions.
  rewrite run_bind, run_await, E. reflexivity.
Qed.

Lemma run_sweep_docs (w : World) :
  ready (this w) = true -> no_faults ->
  docs (db (snd (run removeExpiredSessions w))) =
  filter (fun d => negb (expiresMs d <? clock (ticks w))%Z) (docs (db w)).
Proof.
  intros R F. destruct (run_removeExpiredSessions w R F) as (w' & E & A).
  rewrite E. cbn [snd]. destruct A as (_ & _ & _ & _ & Hd). rewrite Hd.
  unfold deleteMany. apply filter_ext. intros d. rewrite matches_lt.
  reflexivity.
Qed.


(** ** The expiring index and the strategy *)

(** Any call but the creation of [updated_at_ttl_idx]. *)
Definition not_ttl_index (c : Call) : Prop :=
  match c with
  | CreateIndex spec => idx_name spec <> "updated_at_ttl_idx"
  | _ => True
  end.

Lemma invoke_no_ttl_request (cfg : MongoStoreParams) (op : Op) :
  native_strategy cfg = false ->
  Owes (fun t => config t = cfg) not_ttl_index [] (invoke op).
Proof.
  intros Hn.
  destruct op; unfold invoke, get, set, destroy, all, length, clear, touch,
               removeExpiredSessions, set;
    owes_with ltac:(simpl; try exact Logic.I; discriminate).
Qed.

Lemma not_ttl_index_names (tr : list Call) :
  Forall not_ttl_index tr -> ~ In "updated_at_ttl_idx" (index_names tr).
Proof.
  induction 1 as [|c r Hc _ IH]; simpl; [tauto|].
  intros H. apply in_app_or in H. destruct H as [H|H]; [|auto].
  destruct c; simpl in *; try contradiction.
  destruct H as [H|[]]. auto.
Qed.

(** With the strategy [interval], no method ever asks the collection for
    [updated_at_ttl_idx], however the calls are interleaved and whichever
    are rejected. *)
Lemma interval_never_requests_ttl_index
      (cfg : MongoStoreParams) (s0 : Storage) (evs : list Event) :
  native_strategy cfg = false ->
  ~ In "updated_at_ttl_idx"
       (index_names (trace (world (sched evs (boot cfg s0))))).
Proof.
  intros Hn. apply not_ttl_index_names.
  apply (steady_sched (fun t => config t = cfg) not_ttl_index
                      (fun _ => True) (fun _ _ _ _ => Logic.I)
                      (fun op => invoke_no_ttl_request cfg op Hn)
                      evs (boot cfg s0)).
  repeat split; simpl; auto.
Qed.

(** With any other strategy, a first [init] that succeeds asks for it. *)
Lemma native_init_requests_ttl_index (w : World) :
  client (this w) = None ->
  valid_config (config (this w)) = true ->
  native_strategy (config (this w)) = true ->
  no_faults ->
  fst (run init w) = Returned tt /\
  In "updated_at_ttl_idx" (index_names (trace (snd (run init w)))).
Proof.
  intros C V N F. open_world w; simpl in *; subst cl.
  destruct cfg as [pc pd pcol ps pt pp pi]; unfold valid_config in V;
    simpl in *.
  destruct pc as [c|]; [|discriminate].
  apply andb_prop in V. destruct V as (V1 & V2).
  apply negb_true_iff in V1, V2. rewrite V1, V2.
  unfold native_strategy in *; simpl in *.
  destruct ps as [[|]|]; try discriminate N; storage_ok F;
    (split; [reflexivity|]);
    rewrite !index_names_app; apply in_or_app; right; simpl; auto.
Qed.

End Engine.

(** ** The claims on a concrete engine

    Payloads are strings, the clock advances by one second at every
    reading, and the engine is configured with the prefix ["p:"]. *)

Arguments mkSession {Payload}.
Arguments sessionId {Payload}.
Arguments data {Payload}.
Arguments expiresMs {Payload}.
Arguments mkStorage {Payload}.
Arguments docs {Payload}.
Arguments indexes {Payload}.
Arguments mkWorld {Payload}.
Arguments this {Payload}.
Arguments db {Payload}.
Arguments ticks {Payload}.
Arguments trace {Payload}.
Arguments run {Payload} clock fault {A}.
Arguments get {Payload}.
Arguments set {Payload}.
Arguments all {Payload}.
Arguments length {Payload}.
Arguments clear {Payload}.
Arguments removeExpiredSessions {Payload}.
Arguments invoke {Payload}.
Arguments sched {Payload} clock fault.
Arguments boot {Payload}.
Arguments OpGet {Payload}.
Arguments OpSet {Payload}.
Arguments OpLength {Payload}.
Arguments Invoke {Payload}.
Arguments Resume {Payload}.
Arguments world {Payload}.
Arguments pool {Payload}.
Arguments Finished {Payload A}.
Arguments VSession {Payload}.
Arguments CreateIndex {Payload}.
Arguments FindOne {Payload}.
Arguments finished {Payload A}.
Arguments sample_world {Payload}.
Arguments stored_world {Payload}.
Arguments mixed_world {Payload}.
Arguments unnamed_world {Payload}.

Lemma no_fault_never : no_faults no_fault.
Proof. intros n. reflexivity. Qed.

Lemma stored_world_unique (ttl : Z) :
  unique_ids string (docs (db (stored_world sample_clock no_fault ttl "data"))).
Proof. vm_compute. repeat constructor. simpl. tauto. Qed.

(** With [ttlMs = 10000] a [get] two seconds after the [set] returns the
    payload; with [ttlMs = 2000] it returns [null]. *)
Lemma get_returns_live_record_witness :
  fst (run sample_clock no_fault (get "abc") (stored_world sample_clock no_fault 10000 "data")) =
    Returned (Some "data") /\
  fst (run sample_clock no_fault (get "abc") (stored_world sample_clock no_fault 2000 "data")) =
    Returned None.
Proof.
  split.
  - apply (proj2 (proj2 (proj2
             (get_returns_live_record string sample_clock no_fault
                (sample_world 10000) "abc" eq_refl no_fault_never
                (NoDup_nil _)))) "data").
    vm_compute. reflexivity.
  - apply (proj2 (proj2 (proj2
             (get_returns_live_record string sample_clock no_fault
                (sample_world 2000) "abc" eq_refl no_fault_never
                (NoDup_nil _)))) "data").
    vm_compute. discriminate.
Defined.

(** The record written with [ttlMs = 2000] expires at 2000; a sweep and a
    [get] that both read 2000 keep it and report it dead. *)
Lemma sweep_keeps_boundary_record_witness :
  In (mkSession "p:abc" "data" 2000 1000)
     (docs (db (snd (run sample_clock no_fault removeExpiredSessions
                         (stored_world sample_clock no_fault 2000 "data"))))) /\
  fst (run sample_clock no_fault (get "abc") (stored_world sample_clock no_fault 2000 "data")) =
    Returned None.
Proof.
  apply (proj2 (proj2 (proj2
           (sweep_keeps_boundary_record string sample_clock no_fault
              (stored_world sample_clock no_fault 2000 "data") eq_refl no_fault_never
              (stored_world_unique 2000))))
           (mkSession "p:abc" "data" 2000 1000) "abc").
  - vm_compute. left. reflexivity.
  - reflexivity.
  - reflexivity.
Defined.

(** Two [set]s for ["abc"] leave one record, with the second payload. *)
Lemma set_upserts_one_record_witness :
  filter (has_key string "p:abc")
         (docs (db (snd (run sample_clock no_fault (set "abc" "second")
                             (stored_world sample_clock no_fault 10000 "data"))))) =
  [mkSession "p:abc" "second" 12000 3000].
Proof.
  destruct (set_upserts_one_record string sample_clock no_fault
              (sample_world 10000) "abc" "data" eq_refl no_fault_never
              (NoDup_nil _)) as (_ & _ & _ & _ & _ & H).
  exact (proj1 (proj2 (H "second"))).
Defined.

(** C4 as the specification states it fails.  With a clock that moves
    between the two [new Date()] of [set], the record holds the expiry
    [0 + 10000] and [updatedAt = 1000]: no single [now] gives both
    [expiresMs = now + ttlMs] and [updatedAt = now]. *)
Lemma updatedAt_is_a_second_reading :
  sample_clock (ticks (sample_world (Payload := string) 10000)) = 0%Z /\
  docs (db (stored_world sample_clock no_fault 10000 "data")) =
    [mkSession "p:abc" "data" 10000 1000] /\
  ~ (exists now_ : Z,
        docs (db (stored_world sample_clock no_fault 10000 "data")) =
        [mkSession "p:abc" "data" (now_ + 10000) now_]).
Proof.
  split; [reflexivity|]. split; [reflexivity|].
  intros (now_ & H).
  change (docs (db (stored_world sample_clock no_fault 10000 "data")))
    with [mkSession "p:abc" "data" 10000 1000] in H.
  inversion H. lia.
Qed.

(** [touch("abc", "fresh")] two seconds after the [set] leaves the one
    record of ["abc"], with the new payload and the expiry counted from the
    time [touch] reads. *)
Lemma touch_is_set_witness :
  filter (has_key string "p:abc")
         (docs (db (snd (run sample_clock no_fault (touch string "abc" "fresh")
                             (stored_world sample_clock no_fault
                                           10000 "data"))))) =
  [mkSession "p:abc" "fresh" 12000 3000].
Proof.
  exact (proj1 (proj2 (proj2 (touch_is_set string sample_clock no_fault
                                (stored_world sample_clock no_fault 10000 "data")
                                "abc" "fresh")
                             eq_refl no_fault_never
                             (stored_world_unique 10000)))).
Defined.

(** With the prefix ["p:"], the record of ["abc"] is stored under ["p:abc"]
    and not under ["abc"], and [get("abc")] returns it. *)
Lemma key_namespacing_witness :
  findOne string [sessionId_eq "abc"] (docs (db (stored_world sample_clock no_fault 10000 "data"))) = None /\
  fst (run sample_clock no_fault (get "abc") (stored_world sample_clock no_fault 10000 "data")) =
    Returned (Some "data").
Proof.
  assert (P : prefix (this (sample_world (Payload := string) 10000)) <> "") by discriminate.
  assert (N : ~ In "abc" (map sessionId
                              (docs (db (sample_world (Payload := string)
                                                      10000)))))
    by (simpl; tauto).
  destruct (key_namespacing string sample_clock no_fault
              (sample_world 10000) "abc" "data" eq_refl no_fault_never P N)
    as (_ & _ & _ & _ & H1 & _ & H2).
  split; [exact H1|]. apply H2. vm_compute. reflexivity.
Defined.

(** Without a database name and a collection name, the error is the one of
    the database name. *)
Lemma init_checks_config_in_order_witness :
  run (Payload := string) sample_clock no_fault (invoke (OpGet "abc"))
      unnamed_world =
  (Thrown (Error_ "express-session-mongo: dbName not defined"), unnamed_world).
Proof.
  assert (C : p_client (config (this (unnamed_world (Payload := string))))
              <> None) by discriminate.
  exact (proj2 (proj1 (proj2
           (init_checks_config_in_order string sample_clock no_fault
              unnamed_world (OpGet "abc") eq_refl)) C eq_refl)).
Defined.

(** One live and one expired record: [length()] is 1 and [all()] has the
    live payload. *)
Lemma length_all_agree_witness :
  fst (run sample_clock no_fault length (mixed_world "x" "y")) = Returned 1 /\
  fst (run sample_clock no_fault all (mixed_world "x" "y")) = Returned ["x"].
Proof.
  destruct (length_all_agree string sample_clock no_fault
              (mixed_world "x" "y") 1 1
              eq_refl no_fault_never eq_refl eq_refl) as (H1 & H2 & _).
  split; [exact H1 | exact H2].
Defined.

(** [clear()] removes the live and the expired record. *)
Lemma clear_removes_everything_witness :
  docs (db (snd (run sample_clock no_fault clear (mixed_world "x" "y")))) = [] /\
  fst (run sample_clock no_fault length
           (snd (run sample_clock no_fault clear (mixed_world "x" "y")))) = Returned 0.
Proof.
  destruct (clear_removes_everything string sample_clock no_fault (mixed_world "x" "y")
              eq_refl no_fault_never) as (_ & H1 & H2 & _).
  split; [exact H1 | exact H2].
Defined.

(** The second [createIndex] of the first [set] is rejected: [set] fails,
    [hasInit] stays [false], and the next [init] returns at once. *)
Lemma failed_setup_is_not_retried_witness :
  let w1 := snd (run sample_clock second_call_fails
                     (invoke (OpSet "abc" "data")) (sample_world 10000)) in
  fst (run sample_clock second_call_fails
           (invoke (OpSet "abc" "data")) (sample_world 10000)) =
    Thrown StorageError /\
  hasInit (this w1) = false /\
  map idx_name (indexes (db w1)) = ["session_id_idx"] /\
  run sample_clock second_call_fails (init string) w1 = (Returned tt, w1).
Proof.
  assert (M : 1 < List.length
                    (setup_sequence
                       (config (this (sample_world (Payload := string)
                                                   10000)))))
    by (simpl; lia).
  assert (F : fails_at string second_call_fails (sample_world 10000) 1).
  { split; [|reflexivity]. intros i Hi.
    assert (i = 0) by lia. subst i. reflexivity. }
  destruct (failed_setup_is_not_retried string sample_clock second_call_fails
              (sample_world 10000) 1 (OpSet "abc" "data")
              eq_refl eq_refl eq_refl M F)
    as (H1 & H2 & _ & H3 & _ & H4 & H5).
  split; [exact H1|]. split; [exact H3|].
  split; [rewrite H4; reflexivity|].
  exact (proj1 (H5 _ (OpGet "abc") H2)).
Defined.

(** C1 as the specification states it fails.  A first [get] starts the
    setup and waits for the first [createIndex]; a second [get], called
    meanwhile, finds [client] assigned, sends its [findOne] and returns
    while the setup is still in flight: [hasInit] is [false] and only one of
    the three indexes has been asked for. *)
Lemma second_call_does_not_wait :
  let s := sched sample_clock no_fault
                 [Invoke (OpGet "a"); Invoke (OpGet "b"); Resume 1; Resume 1]
                 (boot (Payload := string) (sample_config 10000)
                       (mkStorage [] [])) in
  nth_error (pool s) 1 = Some (Finished (Returned (VSession None))) /\
  option_map finished (nth_error (pool s) 0) = Some false /\
  hasInit (this (world s)) = false /\
  trace (world s) =
    [CreateIndex session_id_idx;
     FindOne [expiresMs_gt 0; sessionId_eq "p:b"]] /\
  ~ calls_wait_for_init string sample_clock no_fault
      (sample_config 10000) (mkStorage [] []).
Proof.
  repeat split.
  intros H.
  specialize (H [Invoke (OpGet "a"); Invoke (OpGet "b"); Resume 1; Resume 1]
                1 (VSession None) eq_refl).
  discriminate H.
Qed.


(** ** The further properties on the concrete engine *)

Arguments destroy {Payload}.
Arguments touch {Payload}.
Arguments init {Payload}.
Arguments OpDestroy {Payload}.

(** [destroy("abc")] empties the collection that held only ["abc"]. *)
Lemma destroy_removes_record_witness :
  docs (db (snd (run sample_clock no_fault (destroy "abc")
                     (stored_world sample_clock no_fault 10000 "data")))) = [] /\
  fst (run sample_clock no_fault (get "abc")
           (snd (run sample_clock no_fault (destroy "abc")
                     (stored_world sample_clock no_fault 10000 "data")))) =
    Returned None.
Proof.
  destruct (destroy_removes_record string sample_clock no_fault
              (stored_world sample_clock no_fault 10000 "data") "abc"
              eq_refl no_fault_never (stored_world_unique 10000))
    as (_ & H1 & H2 & _).
  split; [exact H1 | exact H2].
Defined.

Lemma destroy_absent_changes_nothing_witness :
  docs (db (snd (run sample_clock no_fault (destroy "zzz")
                     (stored_world sample_clock no_fault 10000 "data")))) =
  [mkSession "p:abc" "data" 10000 1000].
Proof.
  assert (N : ~ In (getSid (this (stored_world sample_clock no_fault
                                                 10000 "data")) "zzz")
                   (map sessionId
                        (docs (db (stored_world sample_clock no_fault
                                                10000 "data"))))).
  { vm_compute. intros [H|[]]. discriminate H. }
  exact (proj2 (destroy_absent_changes_nothing string sample_clock no_fault
                  (stored_world sample_clock no_fault 10000 "data") "zzz"
                  eq_refl no_fault_never N)).
Defined.

Lemma set_then_destroy_restores_witness :
  docs (db (snd (run sample_clock no_fault (destroy "abc")
                     (stored_world sample_clock no_fault 10000 "data")))) = [].
Proof.
  assert (N : ~ In (getSid (this (sample_world (Payload := string) 10000))
                           "abc")
                   (map sessionId
                        (docs (db (sample_world (Payload := string) 10000)))))
    by (simpl; tauto).
  exact (proj2 (proj2 (set_then_destroy_restores string sample_clock no_fault
                         (sample_world 10000) "abc" "data"
                         eq_refl no_fault_never N))).
Defined.

Lemma set_leaves_other_ids_witness :
  fst (run sample_clock no_fault (get "other")
           (stored_world sample_clock no_fault 10000 "data")) = Returned None.
Proof.
  assert (Ne : getSid (this (sample_world (Payload := string) 10000)) "other"
               <> getSid (this (sample_world (Payload := string) 10000)) "abc")
    by (vm_compute; discriminate).
  exact (set_leaves_other_ids string sample_clock no_fault
           (sample_world 10000) "abc" "other" "data"
           eq_refl no_fault_never Ne).
Defined.


Lemma sweep_is_invisible_to_reads_witness :
  fst (run sample_clock no_fault all
           (snd (run sample_clock no_fault removeExpiredSessions
                     (mixed_world "x" "y")))) = Returned ["x"].
Proof.
  assert (Le : (sample_clock (ticks (mixed_world "x" "y")) <=
                sample_clock (S (ticks (mixed_world "x" "y"))))%Z)
    by (vm_compute; discriminate).
  exact (proj1 (sweep_is_invisible_to_reads string sample_clock no_fault
                  (mixed_world "x" "y") "a" eq_refl no_fault_never Le)).
Defined.

Lemma init_sets_up_collection_witness :
  hasInit (this (snd (run sample_clock no_fault init
                          (sample_world (Payload := string) 10000)))) = true /\
  has_index "updated_at_ttl_idx"
            (indexes (db (snd (run sample_clock no_fault init
                                   (sample_world (Payload := string) 10000)))))
  = true.
Proof.
  destruct (init_sets_up_collection string sample_clock no_fault
              (sample_world 10000) (mongoClient 0)
              eq_refl eq_refl eq_refl no_fault_never)
    as (_ & H1 & _ & _ & _ & _ & _ & _ & H2).
  split; [rewrite H1; reflexivity | apply H2; discriminate].
Defined.

Lemma methods_fail_in_two_ways_witness :
  well_formed
    (this (snd (run sample_clock second_call_fails
                    (invoke (OpSet "abc" "data")) (sample_world 10000)))) = true.
Proof.
  exact (proj1 (methods_fail_in_two_ways string sample_clock second_call_fails
                  (sample_world 10000) (OpSet "abc" "data") eq_refl)).
Defined.

Lemma failed_method_changes_no_document_witness :
  docs (db (snd (run sample_clock second_call_fails
                     (invoke (OpDestroy "abc"))
                     (mixed_world "x" "y")))) =
  [mkSession "p:a" "x" 5000 0; mkSession "p:b" "y" 1000 0].
Proof.
  exact (failed_method_changes_no_document string sample_clock
           second_call_fails (mixed_world "x" "y") (OpDestroy "abc")
           StorageError eq_refl).
Defined.

Lemma interleaving_keeps_ids_unique_witness :
  unique_ids string
    (docs (db (world (sched sample_clock no_fault
                            [Invoke (OpSet "a" "x"); Invoke (OpSet "a" "y");
                             Resume 1; Resume 0; Resume 0; Resume 0;
                             Resume 1; Resume 1; Resume 0]
                            (boot (sample_config 10000) (mkStorage [] [])))))).
Proof.
  exact (interleaving_keeps_ids_unique string sample_clock no_fault
           (sample_config 10000) (mkStorage [] []) _ (NoDup_nil _)).
Defined.

End MongoStoreBase.

(** * The callback adapter [MongoStore] of [src/MongoStore.ts]

    Every method of the adapter calls the method of the same name on its
    [MongoStoreBase] and hands the result to the callback of express-session
    through [promise.then(...).catch(callback)].  The callback is code of the
    application: it is given by what a call of it does, return or throw.  A
    method of the adapter returns nothing; what can be observed of it is the
    sequence of calls of the callback and whether the promise it drops ends
    rejected. *)
Module MongoStore.
Section Adapter.

Variable Payload : Type.
Variable clock : nat -> Z.
Variable fault : nat -> bool.

Abbreviation World := (MongoStoreBase.World Payload).
Abbreviation run := (MongoStoreBase.run clock fault).

(** What the callback is called with: the value the promise resolved to
    ([callback(null, data)], or [callback(undefined)] where the callback is
    itself the [then] handler), or the error ([callback(err)]). *)
Inductive Args (V : Type) : Type :=
| Success (v : V)
| Failure (e : Error).
Arguments Success {V} v.
Arguments Failure {V} e.

(** A callback: [None] when the call returns, [Some e] when it throws. *)
Definition Callback (V : Type) : Type := Args V -> option Error.

(** A settled promise, with the calls of the callback made so far. *)
Definition Chain (V X : Type) : Type := (Outcome X * list (Args V))%type.

Definition call_callback {V : Type} (cb : Callback V) (a : Args V)
           (log : list (Args V)) : Chain V unit :=
  match cb a with
  | None => (Returned tt, log ++ [a])
  | Some e => (Thrown e, log ++ [a])
  end.

(** [p.then(handler)] where the handler, when there is one, calls the
    callback with the value; without a handler the promise passes on. *)
Definition then_ {V X : Type} (cb : option (Callback V)) (p : Chain V X)
           (a : X -> Args V) : Chain V unit :=
  match p with
  | (Returned x, log) =>
    match cb with
    | Some f => call_callback f (a x) log
    | None => (Returned tt, log)
    end
  | (Thrown e, log) => (Thrown e, log)
  end.

(** [p.catch(callback)] *)
Definition catch_ {V : Type} (cb : option (Callback V)) (p : Chain V unit)
  : Chain V unit :=
  match p with
  | (Returned x, log) => (Returned x, log)
  | (Thrown e, log) =>
    match cb with
    | Some f => call_callback f (Failure e) log
    | None => (Thrown e, log)
    end
  end.

(** What is observed of a method of the adapter. *)
Record Report (V : Type) : Type := mkReport {
  invocations : list (Args V);
  unhandled : option Error
}.
Arguments mkReport {V}.
Arguments invocations {V}.
Arguments unhandled {V}.

Definition report {V : Type} (p : Chain V unit) : Report V :=
  match p with
  | (Returned _, log) => mkReport log None
  | (Thrown e, log) => mkReport log (Some e)
  end.

(** [get(sid, callback)]: [.then((data) => { callback(null, data) })
    .catch(callback)] *)
Definition get (sid : string) (callback : Callback (option Payload)) (w : World)
  : Report (option Payload) * World :=
  (report (catch_ (Some callback)
             (then_ (Some callback)
                    (fst (run (MongoStoreBase.get sid) w), []) Success)),
   snd (run (MongoStoreBase.get sid) w)).

(** [set(sid, session, callback?)]: [.then(callback).catch(callback)] *)
Definition set (sid : string) (session : Payload)
           (callback : option (Callback unit)) (w : World)
  : Report unit * World :=
  (report (catch_ callback
             (then_ callback
                    (fst (run (MongoStoreBase.set sid session) w), []) Success)),
   snd (run (MongoStoreBase.set sid session) w)).

Definition destroy (sid : string) (callback : option (Callback unit))
           (w : World) : Report unit * World :=
  (report (catch_ callback
             (then_ callback
                    (fst (run (MongoStoreBase.destroy sid) w), []) Success)),
   snd (run (MongoStoreBase.destroy sid) w)).

Definition all (callback : Callback (list Payload)) (w : World)
  : Report (list Payload) * World :=
  (report (catch_ (Some callback)
             (then_ (Some callback)
                    (fst (run MongoStoreBase.all w), []) Success)),
   snd (run MongoStoreBase.all w)).

Definition length (callback : Callback nat) (w : World)
  : Report nat * World :=
  (report (catch_ (Some callback)
             (then_ (Some callback)
                    (fst (run MongoStoreBase.length w), []) Success)),
   snd (run MongoStoreBase.length w)).

Definition clear (callback : option (Callback unit)) (w : World)
  : Report unit * World :=
  (report (catch_ callback
             (then_ callback
                    (fst (run MongoStoreBase.clear w), []) Success)),
   snd (run MongoStoreBase.clear w)).

Definition touch (sid : string) (session : Payload)
           (callback : option (Callback unit)) (w : World)
  : Report unit * World :=
  (report (catch_ callback
             (then_ callback
                    (fst (run (MongoStoreBase.touch sid session) w), [])
                    Success)),
   snd (run (MongoStoreBase.touch sid session) w)).

(** The fields of a [MongoStore] object.  [cleanupTimer] is [None] when the
    constructor does not call [setInterval], and otherwise holds the delay
    argument handed to it; what the runtime makes of that delay is not part
    of the source. *)
Record Store : Type := mkStore {
  mongoStore : This;
  cleanupTimer : option Z
}.

(** [config.cleanupInterval || 300000] *)
Definition interval_or_default (n : option Z) : Z :=
  match n with
  | None => 300000
  | Some n => if Z.eqb n 0 then 300000 else n
  end.

(** [constructor(config)] *)
Definition new_MongoStore (cfg : MongoStoreParams) : Store :=
  mkStore (new_MongoStoreBase cfg)
          (match p_cleanupStrategy cfg with
           | Some interval => Some (interval_or_default (p_cleanupInterval cfg))
           | _ => None
           end).

(** One firing of the timer:
    [try { await this.mongoStore.removeExpiredSessions() } catch (e) {}] *)
Definition firing (w : World) : Outcome unit * World :=
  match run MongoStoreBase.removeExpiredSessions w with
  | (Returned _, w') => (Returned tt, w')
  | (Thrown _, w') => (Returned tt, w')
  end.

(** What the promise of the method settled to, as the callback sees it. *)
Definition delivered {V : Type} (o : Outcome V) : Args V :=
  match o with
  | Returned v => Success v
  | Thrown e => Failure e
  end.

(** A callback that never throws. *)
Definition returns {V : Type} (cb : Callback V) : Prop := forall a, cb a = None.

Lemma chain_once {V : Type} (cb : Callback V) (o : Outcome V) :
  returns cb ->
  report (catch_ (Some cb) (then_ (Some cb) (o, []) Success)) =
  mkReport [delivered o] None.
Proof.
  intros H. destruct o as [v|e]; simpl; unfold call_callback; rewrite H;
    reflexivity.
Qed.

Lemma chain_twice {V : Type} (cb : Callback V) (v : V) (e : Error) :
  cb (Success v) = Some e ->
  report (catch_ (Some cb) (then_ (Some cb) (Returned v, []) Success)) =
  mkReport [Success v; Failure e] (cb (Failure e)).
Proof.
  intros H. simpl. unfold call_callback. rewrite H. simpl.
  unfold call_callback. destruct (cb (Failure e)); reflexivity.
Qed.

(** X13.  With a callback that returns normally, every method of the
    adapter calls it exactly once, with the value the method of the engine
    returned or with the error it failed with, leaves no rejected promise
    behind, and changes the engine and the collection exactly as the method
    of the engine does. *)
Theorem adapter_calls_back_once
        (w : World) (sid : string) (session : Payload)
        (cb_get : Callback (option Payload)) (cb_all : Callback (list Payload))
        (cb_length : Callback nat) (cb : Callback unit) :
  returns cb_get -> returns cb_all -> returns cb_length -> returns cb ->
  get sid cb_get w =
    (mkReport [delivered (fst (run (MongoStoreBase.get sid) w))] None,
     snd (run (MongoStoreBase.get sid) w)) /\
  set sid session (Some cb) w =
    (mkReport [delivered (fst (run (MongoStoreBase.set sid session) w))] None,
     snd (run (MongoStoreBase.set sid session) w)) /\
  destroy sid (Some cb) w =
    (mkReport [delivered (fst (run (MongoStoreBase.destroy sid) w))] None,
     snd (run (MongoStoreBase.destroy sid) w)) /\
  all cb_all w =
    (mkReport [delivered (fst (run MongoStoreBase.all w))] None,
     snd (run MongoStoreBase.all w)) /\
  length cb_length w =
    (mkReport [delivered (fst (run MongoStoreBase.length w))] None,
     snd (run MongoStoreBase.length w)) /\
  clear (Some cb) w =
    (mkReport [delivered (fst (run MongoStoreBase.clear w))] None,
     snd (run MongoStoreBase.clear w)) /\
  touch sid session (Some cb) w =
    (mkReport [delivered (fst (run (MongoStoreBase.touch sid session) w))] None,
     snd (run (MongoStoreBase.touch sid session) w)).
Proof.
  intros Hg Ha Hl Hc.
  unfold get, set, destroy, all, length, clear, touch.
  rewrite (chain_once cb_get _ Hg), (chain_once cb_all _ Ha),
          (chain_once cb_length _ Hl), !(chain_once cb _ Hc).
  repeat split.
Qed.

(** X14.  A callback that throws when it is called with the result is
    called a second time, with its own exception as the error: the
    [catch(callback)] that reports failures of the store also catches what
    the [then] handler throws.  What the second call throws is left as a
    rejected promise. *)
Theorem throwing_callback_is_called_twice
        (w : World) (sid : string) (session : Payload)
        (cb_get : Callback (option Payload)) (cb : Callback unit)
        (data : option Payload) (e e' : Error) :
  fst (run (MongoStoreBase.get sid) w) = Returned data ->
  cb_get (Success data) = Some e ->
  fst (run (MongoStoreBase.set sid session) w) = Returned tt ->
  cb (Success tt) = Some e' ->
  fst (get sid cb_get w) =
    mkReport [Success data; Failure e] (cb_get (Failure e)) /\
  fst (set sid session (Some cb) w) =
    mkReport [Success tt; Failure e'] (cb (Failure e')).
Proof.
  intros Hg Hcg Hs Hcs. unfold get, set. cbn [fst].
  rewrite Hg, Hs, (chain_twice cb_get data e Hcg), (chain_twice cb tt e' Hcs).
  split; reflexivity.
Qed.

(** X15.  [set], [destroy], [clear] and [touch] called without a callback
    call nothing; when the method of the engine fails, its error is left as
    a rejected promise that nothing handles. *)
Theorem no_callback_no_report (w : World) (sid : string) (session : Payload) :
  let silent (o : Outcome unit) : Report unit :=
      mkReport [] (match o with Returned _ => None | Thrown e => Some e end) in
  fst (set sid session None w) =
    silent (fst (run (MongoStoreBase.set sid session) w)) /\
  fst (destroy sid None w) =
    silent (fst (run (MongoStoreBase.destroy sid) w)) /\
  fst (clear None w) = silent (fst (run MongoStoreBase.clear w)) /\
  fst (touch sid session None w) =
    silent (fst (run (MongoStoreBase.touch sid session) w)).
Proof.
  intros silent. unfold set, destroy, clear, touch, silent. cbn [fst].
  repeat split;
    match goal with
    | |- context [fst ?r] => destruct (fst r)
    end; reflexivity.
Qed.

(** X16.  The constructor calls [setInterval] exactly when the strategy is
    [interval], and the delay it hands over is [cleanupInterval], or 300000
    when none or 0 is configured.  When it does, the engine never asks the
    collection for the expiring index [updated_at_ttl_idx], however its
    methods are called and interleaved; when it does not, a first [init]
    that succeeds asks for it.  (What the collection holds besides is not
    the engine's doing: an [updated_at_ttl_idx] left by an earlier
    configuration stays, as the source warns.) *)
Theorem timer_excludes_ttl_index_request (cfg : MongoStoreParams) :
  (cleanupTimer (new_MongoStore cfg) <> None <->
   p_cleanupStrategy cfg = Some interval) /\
  (forall n, cleanupTimer (new_MongoStore cfg) = Some n ->
             n <> 0%Z /\
             (p_cleanupInterval cfg = None \/ p_cleanupInterval cfg = Some 0%Z ->
              n = 300000%Z) /\
             (forall m, p_cleanupInterval cfg = Some m -> m <> 0%Z -> n = m)) /\
  (cleanupTimer (new_MongoStore cfg) <> None ->
   forall (s0 : MongoStoreBase.Storage Payload)
          (evs : list (MongoStoreBase.Event Payload)),
     ~ In "updated_at_ttl_idx"
          (MongoStoreBase.index_names Payload
             (MongoStoreBase.trace
                (MongoStoreBase.world
                   (MongoStoreBase.sched clock fault evs
                      (MongoStoreBase.boot cfg s0)))))) /\
  (cleanupTimer (new_MongoStore cfg) = None ->
   forall w : World,
     config (MongoStoreBase.this w) = cfg ->
     client (MongoStoreBase.this w) = None ->
     MongoStoreBase.valid_config cfg = true ->
     MongoStoreBase.no_faults fault ->
     fst (run MongoStoreBase.init w) = Returned tt /\
     In "updated_at_ttl_idx"
        (MongoStoreBase.index_names Payload
           (MongoStoreBase.trace (snd (run MongoStoreBase.init w))))) /\
  mongoStore (new_MongoStore cfg) = new_MongoStoreBase cfg.
Proof.
  assert (Timer : cleanupTimer (new_MongoStore cfg) <> None <->
                  p_cleanupStrategy cfg = Some interval).
  { unfold new_MongoStore; simpl.
    destruct (p_cleanupStrategy cfg) as [[|]|]; split; intros H;
      try congruence; try discriminate H; exfalso; apply H; reflexivity. }
  split; [exact Timer|]. split; [|split; [|split; [|reflexivity]]].
  - unfold new_MongoStore, interval_or_default; simpl.
    destruct (p_cleanupStrategy cfg) as [[|]|]; intros n H;
      try discriminate H.
    inversion H; subst; clear H.
    destruct (p_cleanupInterval cfg) as [m|].
    + destruct (Z.eqb_spec m 0).
      * subst. split; [discriminate|]. split; [reflexivity|].
        intros m Hm Ne; inversion Hm; congruence.
      * split; [assumption|]. split.
        -- intros [H|H]; [discriminate H | inversion H; congruence].
        -- intros m' Hm _; inversion Hm; reflexivity.
    + split; [discriminate|]. split; [reflexivity|].
      intros m Hm; discriminate Hm.
  - intros T s0 evs. apply Timer in T.
    apply MongoStoreBase.interval_never_requests_ttl_index.
    unfold MongoStoreBase.native_strategy. rewrite T. reflexivity.
  - intros T w Hc C V F. subst cfg.
    apply MongoStoreBase.native_init_requests_ttl_index; auto.
    unfold MongoStoreBase.native_strategy.
    destruct (p_cleanupStrategy (config (MongoStoreBase.this w)))
      as [[|]|]; try reflexivity.
    exfalso. apply (proj2 Timer); [reflexivity | exact T].
Qed.

(** X17.  A firing of the timer never fails.  On an engine whose
    configuration does not pass the checks it changes nothing: the
    configuration error is swallowed at every firing and no expired record
    is ever swept.  On an engine that is ready, with no call rejected, it
    leaves the documents that [removeExpiredSessions] leaves. *)
Theorem firing_swallows_errors (w : World) :
  fst (firing w) = Returned tt /\
  (client (MongoStoreBase.this w) = None ->
   MongoStoreBase.valid_config (config (MongoStoreBase.this w)) = false ->
   snd (firing w) = w) /\
  (MongoStoreBase.ready (MongoStoreBase.this w) = true ->
   MongoStoreBase.no_faults fault ->
   MongoStoreBase.docs (MongoStoreBase.db (snd (firing w))) =
   filter (fun d => negb (MongoStoreBase.expiresMs d <?
                          clock (MongoStoreBase.ticks w))%Z)
          (MongoStoreBase.docs (MongoStoreBase.db w))).
Proof.
  unfold firing. split; [|split].
  - destruct (run _ w) as [[u|e] w']; reflexivity.
  - intros C V.
    destruct (MongoStoreBase.run_init_invalid Payload clock fault w C V)
      as (e & _ & E).
    rewrite (MongoStoreBase.run_sweep_init_thrown Payload clock fault w w e E).
    reflexivity.
  - intros R F.
    rewrite <- (MongoStoreBase.run_sweep_docs Payload clock fault w R F).
    destruct (run _ w) as [[u|e] w']; reflexivity.
Qed.

End Adapter.

(** ** The adapter on the concrete engine *)

Arguments Success {V} v.
Arguments Failure {V} e.
Arguments mkReport {V}.

Definition quiet_callback {V : Type} : Callback V := fun _ => None.

(** A callback that throws when it is given a result. *)
Definition picky_callback {V : Type} : Callback V :=
  fun a => match a with
           | Success _ => Some (Error_ "callback failed")
           | Failure _ => None
           end.

Lemma adapter_calls_back_once_witness :
  fst (get string sample_clock no_fault "abc" quiet_callback
           (MongoStoreBase.stored_world sample_clock no_fault 10000 "data")) =
  mkReport [Success (Some "data")] None.
Proof.
  pose proof (proj1 (adapter_calls_back_once string sample_clock no_fault
                       (MongoStoreBase.stored_world sample_clock no_fault
                                                    10000 "data")
                       "abc" "data" quiet_callback quiet_callback
                       quiet_callback quiet_callback
                       (fun _ => eq_refl) (fun _ => eq_refl)
                       (fun _ => eq_refl) (fun _ => eq_refl))) as H.
  rewrite H. reflexivity.
Defined.

Lemma throwing_callback_is_called_twice_witness :
  fst (get string sample_clock no_fault "abc" picky_callback
           (MongoStoreBase.stored_world sample_clock no_fault 10000 "data")) =
  mkReport [Success (Some "data"); Failure (Error_ "callback failed")] None.
Proof.
  exact (proj1 (throwing_callback_is_called_twice string sample_clock no_fault
                  (MongoStoreBase.stored_world sample_clock no_fault
                                               10000 "data")
                  "abc" "data" picky_callback picky_callback
                  (Some "data") (Error_ "callback failed")
                  (Error_ "callback failed")
                  eq_refl eq_refl eq_refl eq_refl)).
Defined.

End MongoStore.
